(** * Monte Carlo estimation of the N-Queens backtracking tree

    A shallow embedding of [monte_carlo_12_queens.py]: the placement
    validator [is_safe], the row scan [get_valid_positions], the
    randomized estimator [monte_carlo_estimate], the exhaustive counter
    [backtracking_count_nodes] and the printer [print_board], followed by
    the properties the specification states about them and by further
    properties of the code.  The report [main] writes is formatted
    floating-point text and is left out.

    Python integers are unbounded, so they are [Z].  A Python list of
    integers is a [list Z]; indexing follows Python (a negative index
    counts from the end, anything out of range raises [IndexError]).
    The board is a mutable list handed around by reference, so every
    function that receives it returns it again next to its result. *)

From Stdlib Require Import ZArith QArith Lia.
From stdpp Require Import base list sorting strings.

Local Open Scope Z_scope.

(** ** Outcomes of a Python call *)

Inductive exn : Set :=
| IndexError
| ZeroDivisionError
| OverflowError.

(** [Starved] is not a Python outcome: it marks a recursion budget of the
    model that ran out, and is shown never to happen. *)
Inductive result (A : Type) : Type :=
| Ok (a : A)
| Raise (e : exn)
| Starved.

Arguments Ok {A} a.
Arguments Raise {A} e.
Arguments Starved {A}.

Definition bind {A B : Type} (m : result A) (k : A -> result B) : result B :=
  match m with
  | Ok a => k a
  | Raise e => Raise e
  | Starved => Starved
  end.

Notation "'do' x <- m ;; k" := (bind m (fun x => k))
  (at level 10, x name, m at level 99, k at level 200).
Notation "'do' ' p <- m ;; k" := (bind m (fun x => match x with p => k end))
  (at level 10, p pattern, m at level 99, k at level 200).

(** ** Python lists *)

(** [range(n)]: 0, 1, ..., n-1, empty when [n <= 0]. *)
Definition range (n : Z) : list Z := seqZ 0 n.

(** [[v] * n]: empty when [n <= 0]. *)
Definition replicate_py (v : Z) (n : Z) : list Z := replicate (Z.to_nat n) v.

(** [len(l)] *)
Definition len (l : list Z) : Z := Z.of_nat (length l).

(** The position a Python index denotes, if any. *)
Definition resolve (l : list Z) (i : Z) : option nat :=
  let j := if i <? 0 then i + len l else i in
  if (0 <=? j) && (j <? len l) then Some (Z.to_nat j) else None.

(** [l[i]] *)
Definition getitem (l : list Z) (i : Z) : result Z :=
  match resolve l i with
  | Some k => match l !! k with Some x => Ok x | None => Raise IndexError end
  | None => Raise IndexError
  end.

(** [l[i] = v] *)
Definition setitem (l : list Z) (i v : Z) : result (list Z) :=
  match resolve l i with
  | Some k => Ok (<[k := v]> l)
  | None => Raise IndexError
  end.

(** [sum(l)] *)
Definition sum (l : list Z) : Z := foldl Z.add 0 l.

(** A [for x in xs] loop whose body updates a state and may raise. *)
Fixpoint for_each {S : Type} (body : Z -> S -> result S) (xs : list Z) (s : S)
  : result S :=
  match xs with
  | [] => Ok s
  | x :: xs' => do s' <- body x s ;; for_each body xs' s'
  end.

(** ** The placement validator *)

(** The loop of [is_safe] over the rows still to be compared.  Each of the
    two tests reads [board[i]] afresh, as the source does. *)
Fixpoint is_safe_loop (board : list Z) (row col : Z) (rows : list Z)
  : result (bool * list Z) :=
  match rows with
  | [] => Ok (true, board)
  | i :: rest =>
      do q <- getitem board i ;;
      if q =? col then Ok (false, board)
      else
        do q' <- getitem board i ;;
        if Z.abs (q' - col) =? Z.abs (i - row) then Ok (false, board)
        else is_safe_loop board row col rest
  end.

Definition is_safe (board : list Z) (row col n : Z) : result (bool * list Z) :=
  is_safe_loop board row col (range row).

(** The loop of [get_valid_positions]; [valid] is the list built so far. *)
Fixpoint get_valid_positions_loop (board : list Z) (row n : Z)
    (cols : list Z) (valid : list Z) : result (list Z * list Z) :=
  match cols with
  | [] => Ok (valid, board)
  | col :: rest =>
      do '(safe, board) <- is_safe board row col n ;;
      if safe : bool
      then get_valid_positions_loop board row n rest (valid ++ [col])
      else get_valid_positions_loop board row n rest valid
  end.

Definition get_valid_positions (board : list Z) (row n : Z)
  : result (list Z * list Z) :=
  get_valid_positions_loop board row n (range n) [].

(** ** The exact node counter *)

(** The board and the two one-cell counters the nested [backtrack] shares
    with its enclosing call. *)
Record search_state : Type := SearchState {
  board_of : list Z;
  node_count : Z;
  solutions : Z
}.

Definition with_board (st : search_state) (b : list Z) : search_state :=
  {| board_of := b; node_count := node_count st; solutions := solutions st |}.

Definition bump_nodes (st : search_state) : search_state :=
  {| board_of := board_of st; node_count := node_count st + 1;
     solutions := solutions st |}.

Definition bump_solutions (st : search_state) : search_state :=
  {| board_of := board_of st; node_count := node_count st;
     solutions := solutions st + 1 |}.

(** [backtrack(board, row)].  The recursion goes from [row] to [row + 1]
    and stops at [row == n]; [fuel] bounds its depth.  The interpreter's
    own recursion limit is a resource bound and is left out. *)
Fixpoint backtrack (fuel : nat) (n row : Z) (st : search_state)
  : result search_state :=
  match fuel with
  | O => Starved
  | S fuel' =>
      let st := bump_nodes st in
      if row =? n then Ok (bump_solutions st)
      else
        for_each
          (fun col st =>
             do '(safe, board) <- is_safe (board_of st) row col n ;;
             if safe : bool then
               do placed <- setitem board row col ;;
               do st' <- backtrack fuel' n (row + 1) (with_board st placed) ;;
               do cleared <- setitem (board_of st') row (-1) ;;
               Ok (with_board st' cleared)
             else Ok (with_board st board))
          (range n) st
  end.

(** [backtracking_count_nodes(n)].  [elapsed] stands for the difference of
    the two clock readings, which the function returns untouched. *)
Definition backtracking_count_nodes (n : Z) (elapsed : Q) : result (Z * Z * Q) :=
  do st <- backtrack (S (Z.to_nat n)) n 0
          {| board_of := replicate_py (-1) n; node_count := 0; solutions := 0 |} ;;
  Ok (node_count st, solutions st, elapsed).

(** ** The random source *)

(** The module-level generator of [random]: [seed_rng s] is its state after
    [random.seed(s)], and [randbelow g m] draws an index below [m] and
    advances the state. *)
Class RandomSource (G : Type) : Type := {
  seed_rng : Z -> G;
  randbelow : G -> nat -> nat * G;
  randbelow_lt : forall g m, (0 < m)%nat -> (fst (randbelow g m) < m)%nat
}.

(** A small linear congruential generator, used to run the estimator on
    concrete inputs. *)
Definition lcg_next (g : Z) : Z := (1103515245 * g + 12345) mod 2147483648.

Definition lcg_below (g : Z) (m : nat) : nat * Z :=
  (Z.to_nat ((g / 65536) mod Z.of_nat m), lcg_next g).

#[export, refine] Instance lcg : RandomSource Z := {|
  seed_rng := fun s => s mod 2147483648;
  randbelow := lcg_below
|}.
Proof.
  intros g m Hm. unfold lcg_below. simpl.
  pose proof (Z.mod_pos_bound (g / 65536) (Z.of_nat m)). lia.
Defined.

(** ** The Monte Carlo estimator *)

(** Floats are kept as exact rationals: a quotient is the rational the
    interpreter rounds, and the rounding itself is left out.  What is kept
    is the range of a float: a magnitude of [float_limit] or more rounds
    (to nearest, ties to even) beyond the largest double,
    [2^1024 - 2^971], and the operation that meets it raises
    [OverflowError]. *)
Definition float_limit : Z := 2 ^ 1024 - 2 ^ 970.

(** [a / b] on two integers: the correctly rounded quotient, if that is a
    float. *)
Definition truediv (a b : Z) : result Q :=
  if b =? 0 then Raise ZeroDivisionError
  else if float_limit * Z.abs b <=? Z.abs a then Raise OverflowError
  else Ok (Qred (inject_Z a / inject_Z b)%Q).

(** [x / b] for a float [x] and an integer [b]: [b] is converted to a
    float first, then tested for zero. *)
Definition truediv_float (x : Q) (b : Z) : result Q :=
  if float_limit <=? Z.abs b then Raise OverflowError
  else if b =? 0 then Raise ZeroDivisionError
  else Ok (x / inject_Z b)%Q.

Section Estimator.
Context {G : Type} `{RandomSource G}.

(** [random.choice(seq)] *)
Definition choice (g : G) (seq : list Z) : result (Z * G) :=
  match seq with
  | [] => Raise IndexError
  | _ :: _ =>
      let '(k, g') := randbelow g (length seq) in
      match seq !! k with
      | Some c => Ok (c, g')
      | None => Raise IndexError
      end
  end.

(** The row loop of one trial, with its [break]. *)
Fixpoint trial_rows (n : Z) (rows : list Z) (board : list Z)
    (estimate product : Z) (g : G) : result (Z * G) :=
  match rows with
  | [] => Ok (estimate, g)
  | row :: rest =>
      do '(valid_positions, board) <- get_valid_positions board row n ;;
      let m := len valid_positions in
      if m =? 0 then Ok (estimate, g)
      else
        let product := product * m in
        let estimate := estimate + product in
        do '(c, g) <- choice g valid_positions ;;
        do board <- setitem board row c ;;
        trial_rows n rest board estimate product g
  end.

(** One trial: a fresh board, the root counted once. *)
Definition trial (n : Z) (g : G) : result (Z * G) :=
  trial_rows n (range n) (replicate_py (-1) n) 1 1 g.

(** The loop over the trials; [estimates] is the list built so far. *)
Fixpoint trials_loop (n : Z) (ts : list Z) (estimates : list Z) (g : G)
  : result (list Z * G) :=
  match ts with
  | [] => Ok (estimates, g)
  | _ :: rest =>
      do '(estimate, g) <- trial n g ;;
      trials_loop n rest (estimates ++ [estimate]) g
  end.

(** [monte_carlo_estimate(n, num_trials, seed)], run with the module's
    generator in state [g]; [elapsed] is the difference of the two clock
    readings.  The average is kept as the exact quotient. *)
Definition monte_carlo_estimate (n num_trials : Z) (seed : option Z)
    (g : G) (elapsed : Q) : result (Q * list Z * Q) :=
  let g := match seed with Some s => seed_rng s | None => g end in
  do '(estimates, _) <- trials_loop n (range num_trials) [] g ;;
  do avg_time <- truediv_float elapsed num_trials ;;
  do average <- truediv (sum estimates) (len estimates) ;;
  Ok (average, estimates, avg_time).

End Estimator.

(** ** The specification's wording *)

(** The sentinel of a row without a queen. *)
Definition unplaced : Z := -1.

(** No earlier row attacks [(row, col)]: neither the same column nor a
    shared diagonal. *)
Definition no_conflict (board : list Z) (row col : Z) : Prop :=
  forall i q, 0 <= i < row -> board !! Z.to_nat i = Some q ->
    q <> col /\ Z.abs (q - col) <> Z.abs (i - row).

(** The same test as a function: one earlier row, then all of them. *)
Definition clear_of (board : list Z) (row col i : Z) : bool :=
  match board !! Z.to_nat i with
  | Some q => negb (q =? col) && negb (Z.abs (q - col) =? Z.abs (i - row))
  | None => true
  end.

Definition safe_at (board : list Z) (row col : Z) : bool :=
  forallb (clear_of board row col) (range row).

(** Rows [0 .. row-1] all hold a queen. *)
Definition placed_below (board : list Z) (row : Z) : Prop :=
  forall i q, 0 <= i < row -> board !! Z.to_nat i = Some q -> q <> unplaced.

(** Column relabelling [c -> n-1-c] of the placed entries of a board. *)
Definition reflect_board (n : Z) (board : list Z) : list Z :=
  (fun c => if c =? unplaced then c else n - 1 - c) <$> board.

(** What a call returns, without the board handed back. *)
Definition value_of {A : Type} (r : result (A * list Z)) : result A :=
  do '(a, _) <- r ;; Ok a.

(** The validator answers [True] for [(row, col)]. *)
Definition accepts (n : Z) (board : list Z) (row col : Z) : bool :=
  match is_safe board row col n with
  | Ok (safe, _) => safe
  | _ => false
  end.

(** The columns of [0 .. n-1] the validator accepts for [row]. *)
Definition safe_columns (n : Z) (board : list Z) (row : Z) : list Z :=
  filter (fun c => accepts n board row c = true) (range n).

(** One descent as the specification words it: [product] is the running
    product of branching factors, [acc] the accumulated sum; the last
    argument is the value of the trial. *)
Inductive descent (n : Z) : list Z -> Z -> Z -> Z -> Z -> Prop :=
| descent_end board row product acc :
    n <= row ->
    descent n board row product acc acc
| descent_dead_end board row product acc :
    0 <= row < n ->
    len (safe_columns n board row) = 0 ->
    descent n board row product acc acc
| descent_commit board row product acc c v :
    0 <= row < n ->
    len (safe_columns n board row) <> 0 ->
    c ∈ safe_columns n board row ->
    descent n (<[Z.to_nat row := c]> board) (row + 1)
            (product * len (safe_columns n board row))
            (acc + product * len (safe_columns n board row)) v ->
    descent n board row product acc v.

(** The value of a trial: the descent from the empty board, seeded at 1. *)
Definition trial_value (n v : Z) : Prop :=
  descent n (replicate_py unplaced n) 0 1 1 v.

(** What one call of [backtrack] leaves behind, relative to the state [st]
    it started from: a board of the same size, no solution lost, and at
    least one node counted per solution counted. *)
Definition counted_from (n : Z) (st st' : search_state) : Prop :=
  len (board_of st') = n /\
  solutions st <= solutions st' /\
  solutions st' - solutions st <= node_count st' - node_count st.

(** ** Placements *)

(** A placement lists the columns of the queens of rows 0, 1, ... in row
    order.  It is peaceful on an [n]-board when every column lies in
    [0, n) and no two queens share a column or a diagonal. *)
Definition peaceful (n : Z) (q : list Z) : Prop :=
  (forall j b, q !! j = Some b -> 0 <= b < n) /\
  (forall i j a b, (i < j)%nat -> q !! i = Some a -> q !! j = Some b ->
     a <> b /\ Z.abs (a - b) <> Z.of_nat j - Z.of_nat i).

(** [q] continues the placement [p], and the queens it adds keep to the
    board and attack no queen of an earlier row. *)
Definition extends_peacefully (n : Z) (p q : list Z) : Prop :=
  p `prefix_of` q /\
  (forall j b, (length p <= j)%nat -> q !! j = Some b ->
     0 <= b < n /\
     forall i a, (i < j)%nat -> q !! i = Some a ->
       a <> b /\ Z.abs (a - b) <> Z.of_nat j - Z.of_nat i).

(** The board of [n] rows that holds the placement [p] in its first rows
    and no queen in the others. *)
Definition board_with (n : Z) (p : list Z) : list Z :=
  p ++ replicate_py unplaced (n - len p).

(** The placements the search passes through below [p] when [d] rows are
    left: [p] itself, then, column by column, those below each safe
    continuation of [p]. *)
Fixpoint placements_from (d : nat) (n : Z) (p : list Z) : list (list Z) :=
  p :: match d with
       | O => []
       | S d' =>
           range n ≫= (fun c =>
             if safe_at p (len p) c then placements_from d' n (p ++ [c])
             else [])
       end.

(** A placement with a queen in each of the [n] rows. *)
Definition complete (n : Z) (q : list Z) : Prop := len q = n.

#[export] Instance complete_dec (n : Z) (q : list Z) : Decision (complete n q).
Proof. unfold complete. apply _. Defined.

(** The first [row] rows of the board hold queens on distinct columns of
    [0, n). *)
Definition distinct_columns (n : Z) (board : list Z) (row : Z) : Prop :=
  NoDup (take (Z.to_nat row) board) /\
  Forall (fun c => 0 <= c < n) (take (Z.to_nat row) board).

(** [d + d (d-1) + ... + d!]: the number of non-empty ways to fill at most
    [d] rows with distinct columns out of [d]. *)
Fixpoint falling_sum (d : nat) : Z :=
  match d with
  | O => 0
  | S d' => Z.of_nat d * (1 + falling_sum d')
  end.

(** ** Printing a board *)

(** The inner loop of [print_board]: the text of one row, built cell by
    cell; [board[row]] is read for every cell. *)
Fixpoint print_board_row (board : list Z) (row : Z) (cols : list Z)
    (line : string) : result string :=
  match cols with
  | [] => Ok line
  | col :: rest =>
      do q <- getitem board row ;;
      print_board_row board row rest
        (line +:+ (if q =? col then "Q " else ". "))
  end.

(** The outer loop; [out] holds the lines printed so far, which stay
    printed when a later row raises. *)
Fixpoint print_board_rows (board : list Z) (n : Z) (rows : list Z)
    (out : list string) : list string * result unit :=
  match rows with
  | [] => (out, Ok tt)
  | row :: rest =>
      match print_board_row board row (range n) "" with
      | Ok line => print_board_rows board n rest (out ++ [line])
      | Raise e => (out, Raise e)
      | Starved => (out, Starved)
      end
  end.

(** [print_board(board, n)]: the lines written to the standard output, and
    how the call ends. *)
Definition print_board (board : list Z) (n : Z) : list string * result unit :=
  match print_board_rows board n (range n) [] with
  | (out, Ok _) => (out ++ [""], Ok tt)
  | other => other
  end.

(** [k] empty squares. *)
Fixpoint dots (k : nat) : string :=
  match k with
  | O => ""
  | S k' => ". " +:+ dots k'
  end.

(** A row of [n] squares with a queen in column [q], if that is a column
    of the board. *)
Definition row_text (n q : Z) : string :=
  if (0 <=? q) && (q <? n)
  then dots (Z.to_nat q) +:+ "Q " +:+ dots (Z.to_nat (n - 1 - q))
  else dots (Z.to_nat n).

(** The squares of the columns [cols] of a row with its queen in [q]. *)
Fixpoint cells (q : Z) (cols : list Z) : string :=
  match cols with
  | [] => ""
  | col :: rest => (if q =? col then "Q " else ". ") +:+ cells q rest
  end.

(** ** Replaying draws *)

(** A generator that replays a script: each draw takes the next number of
    the script, reduced below the bound asked for. *)
Definition scripted_below (g : list nat) (m : nat) : nat * list nat :=
  match g with
  | [] => (O, [])
  | x :: g' => ((x mod m)%nat, g')
  end.

#[export, refine] Instance scripted : RandomSource (list nat) := {|
  seed_rng := fun _ => [];
  randbelow := scripted_below
|}.
Proof.
  intros g m Hm. destruct g as [|x g']; simpl; [exact Hm|].
  apply Nat.mod_upper_bound. lia.
Defined.

(** All scripts of [k] draws, each a number below [L]. *)
Fixpoint scripts (L k : nat) : list (list nat) :=
  match k with
  | O => [[]]
  | S k' => seq 0 L ≫= (fun x => cons x <$> scripts L k')
  end.

(** The value a trial returned (0 stands for a trial that raised; no trial
    does). *)
Definition estimate_of {G : Type} (r : result (Z * G)) : Z :=
  match r with
  | Ok (v, _) => v
  | _ => 0
  end.

(** The sum of [f] over a list. *)
Fixpoint total {A : Type} (f : A -> Z) (l : list A) : Z :=
  match l with
  | [] => 0
  | x :: rest => f x + total f rest
  end.

(** * Properties *)

(** ** The functions at work *)

Example is_safe_free_square : is_safe [1; 3; 0; -1] 3 2 4 = Ok (true, [1; 3; 0; -1]).
Proof. reflexivity. Qed.

Example is_safe_same_column : is_safe [1; 3; 0; -1] 3 3 4 = Ok (false, [1; 3; 0; -1]).
Proof. reflexivity. Qed.

Example is_safe_short_board : is_safe [] 1 0 4 = Raise IndexError.
Proof. reflexivity. Qed.

Example get_valid_positions_one_left :
  get_valid_positions [1; 3; -1; -1] 2 4 = Ok ([0], [1; 3; -1; -1]).
Proof. reflexivity. Qed.

Example get_valid_positions_dead_end :
  get_valid_positions [0; 2; -1; -1] 2 4 = Ok ([], [0; 2; -1; -1]).
Proof. reflexivity. Qed.

Example monte_carlo_estimate_four_queens :
  monte_carlo_estimate 4 6 (Some 42) (0 : Z) 1
  = Ok (17%Q, [21; 17; 17; 13; 17; 17], (1 # 6)%Q).
Proof. vm_compute. reflexivity. Qed.

Example truediv_largest_float :
  truediv (float_limit - 1) 1 = Ok (inject_Z (float_limit - 1)).
Proof. vm_compute. reflexivity. Qed.

Example truediv_beyond_floats : truediv float_limit 1 = Raise OverflowError.
Proof. vm_compute. reflexivity. Qed.

Example truediv_float_beyond_floats :
  truediv_float 1 (- 10 ^ 400) = Raise OverflowError.
Proof. vm_compute. reflexivity. Qed.

Example monte_carlo_estimate_huge_negative_count :
  monte_carlo_estimate 4 (- 10 ^ 400) (Some 42) (0 : Z) 1
  = Raise OverflowError.
Proof. vm_compute. reflexivity. Qed.

Example monte_carlo_estimate_negative_count :
  monte_carlo_estimate 4 (-1) (Some 42) (0 : Z) 1 = Raise ZeroDivisionError.
Proof. vm_compute. reflexivity. Qed.

Example monte_carlo_estimate_empty_board :
  monte_carlo_estimate 0 2 (Some 42) (0 : Z) 1 = Ok (1%Q, [1; 1], (1 # 2)%Q).
Proof. vm_compute. reflexivity. Qed.

(** ** Lists and indices *)

Lemma len_nonneg (l : list Z) : 0 <= len l.
Proof. unfold len. lia. Qed.

Lemma len_replicate_py (v n : Z) : len (replicate_py v n) = Z.max 0 n.
Proof. unfold len, replicate_py. rewrite length_replicate. lia. Qed.

Lemma resolve_in_range (l : list Z) (i : Z) :
  0 <= i < len l -> resolve l i = Some (Z.to_nat i).
Proof.
  intros Hi. unfold resolve.
  destruct (Z.ltb_spec i 0) as [?|_]; [lia|].
  destruct (Z.leb_spec 0 i); [|lia].
  destruct (Z.ltb_spec i (len l)); [reflexivity|lia].
Qed.

Lemma getitem_in_range (l : list Z) (i : Z) :
  0 <= i < len l ->
  exists q, l !! Z.to_nat i = Some q /\ getitem l i = Ok q.
Proof.
  intros Hi. unfold getitem. rewrite resolve_in_range by assumption.
  destruct (l !! Z.to_nat i) as [q|] eqn:E.
  - exists q. split; reflexivity.
  - apply lookup_ge_None in E. unfold len in Hi. lia.
Qed.

Lemma setitem_in_range (l : list Z) (i v : Z) :
  0 <= i < len l -> setitem l i v = Ok (<[Z.to_nat i := v]> l).
Proof.
  intros Hi. unfold setitem. rewrite resolve_in_range by assumption.
  reflexivity.
Qed.

Lemma len_insert (l : list Z) (k : nat) (v : Z) : len (<[k := v]> l) = len l.
Proof. unfold len. rewrite length_insert. reflexivity. Qed.

Lemma in_range (n i : Z) : i ∈ range n <-> 0 <= i < n.
Proof. unfold range. rewrite elem_of_seqZ. lia. Qed.

Lemma range_nonpos (n : Z) : n <= 0 -> range n = [].
Proof.
  intros Hn. unfold range, seqZ.
  replace (Z.to_nat n) with O by lia. reflexivity.
Qed.

Lemma range_succ (n : Z) : 0 <= n -> range (n + 1) = range n ++ [n].
Proof.
  intros Hn. unfold range. rewrite seqZ_app by lia.
  rewrite Z.add_0_l. reflexivity.
Qed.

Lemma len_range (n : Z) : len (range n) = Z.max 0 n.
Proof. unfold len, range. rewrite length_seqZ. lia. Qed.

(** ** The validator *)

(** The loop hands the board back as it received it. *)
Lemma is_safe_loop_board (board : list Z) (row col : Z) (rows : list Z)
    (b : bool) (board' : list Z) :
  is_safe_loop board row col rows = Ok (b, board') -> board' = board.
Proof.
  induction rows as [|i rest IH]; simpl; intros Hrun.
  - congruence.
  - destruct (getitem board i) as [q| |]; simpl in Hrun; try discriminate.
    destruct (q =? col); [congruence|].
    destruct (Z.abs (q - col) =? Z.abs (i - row)); [congruence|].
    apply IH. assumption.
Qed.

(** On rows inside the board the loop never raises and computes the
    conjunction of the per-row tests. *)
Lemma is_safe_loop_value (board : list Z) (row col : Z) (rows : list Z) :
  Forall (fun i => 0 <= i < len board) rows ->
  is_safe_loop board row col rows
  = Ok (forallb (clear_of board row col) rows, board).
Proof.
  induction 1 as [|i rest Hi _ IH]; simpl; [reflexivity|].
  destruct (getitem_in_range board i Hi) as (q & Hq & Hget).
  unfold clear_of at 1. rewrite Hget, Hq. simpl.
  destruct (q =? col); simpl; [reflexivity|].
  destruct (Z.abs (q - col) =? Z.abs (i - row)); simpl; [reflexivity|].
  exact IH.
Qed.

Lemma range_within (board : list Z) (row : Z) :
  row <= len board -> Forall (fun i => 0 <= i < len board) (range row).
Proof.
  intros Hrow. apply Forall_forall. intros i Hi.
  apply in_range in Hi. lia.
Qed.

Lemma is_safe_value (board : list Z) (row col n : Z) :
  row <= len board ->
  is_safe board row col n = Ok (safe_at board row col, board).
Proof.
  intros Hrow. unfold is_safe, safe_at.
  apply is_safe_loop_value, range_within, Hrow.
Qed.

Lemma safe_at_no_conflict (board : list Z) (row col : Z) :
  safe_at board row col = true <-> no_conflict board row col.
Proof.
  unfold safe_at, no_conflict. rewrite forallb_forall. split.
  - intros Hall i q Hi Hq.
    assert (Hin : In i (range row)).
    { apply list_elem_of_In, in_range, Hi. }
    specialize (Hall i Hin). unfold clear_of in Hall. rewrite Hq in Hall.
    apply andb_true_iff in Hall as [H1 H2].
    apply negb_true_iff in H1, H2.
    apply Z.eqb_neq in H1, H2. split; assumption.
  - intros Hnc i Hin. apply list_elem_of_In, in_range in Hin.
    unfold clear_of. destruct (board !! Z.to_nat i) as [q|] eqn:Hq; [|reflexivity].
    destruct (Hnc i q Hin Hq) as [H1 H2].
    apply Z.eqb_neq in H1, H2. rewrite H1, H2. reflexivity.
Qed.

(** C2: on a board of [n] rows, for a row in [0, n) and any column,
    [is_safe] returns [True] exactly when no earlier row holds the same
    column or shares a diagonal with the candidate, and the board it was
    given is the board after the call. *)
Theorem is_safe_iff_no_conflict (board : list Z) (row col n : Z) :
  len board = n -> 0 <= row < n ->
  exists safe : bool,
    is_safe board row col n = Ok (safe, board) /\
    (safe = true <-> no_conflict board row col).
Proof.
  intros Hlen Hrow. exists (safe_at board row col). split.
  - apply is_safe_value. lia.
  - apply safe_at_no_conflict.
Qed.

Lemma is_safe_iff_no_conflict_witness :
  exists safe : bool,
    is_safe [1; 3; 0; -1] 3 2 4 = Ok (safe, [1; 3; 0; -1]) /\
    (safe = true <-> no_conflict [1; 3; 0; -1] 3 2).
Proof.
  apply (is_safe_iff_no_conflict [1; 3; 0; -1] 3 2 4); [reflexivity | lia].
Defined.

(** *** Column reflection *)

Lemma len_reflect_board (n : Z) (board : list Z) :
  len (reflect_board n board) = len board.
Proof. unfold len, reflect_board. rewrite length_fmap. reflexivity. Qed.

Lemma getitem_reflect_board (n : Z) (board : list Z) (i : Z) :
  getitem (reflect_board n board) i
  = do q <- getitem board i ;; Ok (if q =? unplaced then q else n - 1 - q).
Proof.
  unfold getitem, resolve. rewrite len_reflect_board.
  destruct ((0 <=? (if i <? 0 then i + len board else i))
            && ((if i <? 0 then i + len board else i) <? len board));
    [|reflexivity].
  unfold reflect_board. rewrite list_lookup_fmap.
  destruct (board !! _); reflexivity.
Qed.

Lemma getitem_lookup (l : list Z) (i q : Z) :
  0 <= i -> getitem l i = Ok q -> l !! Z.to_nat i = Some q.
Proof.
  intros Hi. unfold getitem, resolve.
  destruct (Z.ltb_spec i 0); [lia|].
  destruct ((0 <=? i) && (i <? len l)); [|discriminate].
  destruct (l !! Z.to_nat i); congruence.
Qed.

Lemma is_safe_loop_reflect (n : Z) (board : list Z) (row col : Z)
    (rows : list Z) :
  Forall (fun i => forall q, getitem board i = Ok q -> q <> unplaced) rows ->
  value_of (is_safe_loop (reflect_board n board) row (n - 1 - col) rows)
  = value_of (is_safe_loop board row col rows).
Proof.
  induction 1 as [|i rest Hi _ IH]; simpl; [reflexivity|].
  rewrite getitem_reflect_board.
  destruct (getitem board i) as [q| |] eqn:Hq; simpl; try reflexivity.
  specialize (Hi q eq_refl).
  destruct (Z.eqb_spec q unplaced) as [?|_]; [contradiction|].
  destruct (Z.eqb_spec (n - 1 - q) (n - 1 - col)) as [E1|E1],
           (Z.eqb_spec q col) as [E2|E2]; try lia; [reflexivity|].
  replace (n - 1 - q - (n - 1 - col)) with (- (q - col)) by lia.
  rewrite Z.abs_opp.
  destruct (Z.abs (q - col) =? Z.abs (i - row)); [reflexivity|exact IH].
Qed.

(** C9: [is_safe] is invariant under column reflection.  On a board whose
    rows [0 .. row-1] hold queens, as the validator is always called,
    [is_safe] gives the same answer for the board and candidate column as
    for their reflections [c -> n-1-c], an [IndexError] included. *)
Theorem is_safe_reflect (board : list Z) (row col n : Z) :
  placed_below board row ->
  value_of (is_safe (reflect_board n board) row (n - 1 - col) n)
  = value_of (is_safe board row col n).
Proof.
  intros Hplaced. unfold is_safe. apply is_safe_loop_reflect.
  apply Forall_forall. intros i Hi q Hq.
  apply in_range in Hi. apply (Hplaced i q Hi).
  apply getitem_lookup; [lia|assumption].
Qed.

Lemma is_safe_reflect_witness :
  placed_below [1; 3; -1; -1] 2 /\
  value_of (is_safe (reflect_board 4 [1; 3; -1; -1]) 2 (4 - 1 - 0) 4)
  = value_of (is_safe [1; 3; -1; -1] 2 0 4).
Proof.
  assert (Hp : placed_below [1; 3; -1; -1] 2).
  { intros i q Hi Hq. unfold unplaced.
    assert (Hc : i = 0 \/ i = 1) by lia.
    destruct Hc as [-> | ->]; simpl in Hq; injection Hq as <-; lia. }
  split; [exact Hp|].
  apply (is_safe_reflect [1; 3; -1; -1] 2 0 4 Hp).
Defined.

(** The hypothesis is used: called for a row above one that holds no
    queen, which neither search does, the validator compares the sentinel
    like a column, and the sentinel is not relabelled. *)
Lemma is_safe_reflect_unplaced_row :
  value_of (is_safe (reflect_board 4 [-1; -1; -1; -1]) 1 (4 - 1 - 0) 4)
  <> value_of (is_safe [-1; -1; -1; -1] 1 0 4).
Proof. vm_compute. discriminate. Qed.

(** ** The exact node counter *)

(** A loop whose body keeps an invariant, and never raises under it, runs
    to its end and keeps the invariant. *)
Lemma for_each_invariant {S : Type} (P : S -> Prop)
    (body : Z -> S -> result S) (xs : list Z) (s : S) :
  P s ->
  (forall x t, x ∈ xs -> P t -> exists t', body x t = Ok t' /\ P t') ->
  exists s', for_each body xs s = Ok s' /\ P s'.
Proof.
  revert s. induction xs as [|x xs IH]; intros s Hs Hbody; simpl.
  - exists s. split; [reflexivity|assumption].
  - destruct (Hbody x s) as (t & Ht & HPt); [left|assumption|].
    rewrite Ht. simpl. apply IH; [assumption|].
    intros y u Hy. apply Hbody. right. assumption.
Qed.

Lemma counted_from_trans (n : Z) (a b c : search_state) :
  counted_from n a b -> counted_from n b c -> counted_from n a c.
Proof. unfold counted_from. intros (_ & ? & ?) (? & ? & ?). lia. Qed.

Lemma backtrack_counts (fuel : nat) (n row : Z) (st : search_state) :
  0 <= row <= n -> len (board_of st) = n ->
  (Z.to_nat (n - row) < fuel)%nat ->
  exists st', backtrack fuel n row st = Ok st' /\ counted_from n st st'.
Proof.
  revert row st. induction fuel as [|fuel IH]; intros row st Hrow Hlen Hfuel;
    [lia|].
  simpl. destruct (Z.eqb_spec row n) as [->|Hne].
  - eexists. split; [reflexivity|].
    unfold counted_from. simpl. lia.
  - assert (Hstart : counted_from n st (bump_nodes st)).
    { unfold counted_from. simpl. lia. }
    revert Hstart. generalize (bump_nodes st). intros st1 Hstart.
    apply (for_each_invariant (counted_from n st)); [assumption|].
    intros col t _ Ht. destruct Ht as (Htlen & Htsol & Htnodes).
    rewrite (is_safe_value (board_of t) row col n) by lia. simpl.
    destruct (safe_at (board_of t) row col).
    + rewrite setitem_in_range by lia. simpl.
      destruct (IH (row + 1)
                  (with_board t (<[Z.to_nat row := col]> (board_of t))))
        as (u & Hu & Hulen & Husol & Hunodes).
      * lia.
      * simpl. rewrite len_insert. assumption.
      * lia.
      * rewrite Hu. simpl in *. rewrite setitem_in_range by lia. simpl.
        eexists. split; [reflexivity|].
        unfold counted_from. simpl. rewrite len_insert. lia.
    + eexists. split; [reflexivity|].
      unfold counted_from. simpl. lia.
Qed.

(** C3: the solution counts for n = 1, 2, 3, 4, 5, 6 and 8 are
    1, 0, 0, 2, 10, 4 and 92 (with 2, 3, 6, 17, 54, 153 and 2057 nodes). *)
Theorem backtracking_count_nodes_small (elapsed : Q) :
  backtracking_count_nodes 1 elapsed = Ok (2, 1, elapsed) /\
  backtracking_count_nodes 2 elapsed = Ok (3, 0, elapsed) /\
  backtracking_count_nodes 3 elapsed = Ok (6, 0, elapsed) /\
  backtracking_count_nodes 4 elapsed = Ok (17, 2, elapsed) /\
  backtracking_count_nodes 5 elapsed = Ok (54, 10, elapsed) /\
  backtracking_count_nodes 6 elapsed = Ok (153, 4, elapsed) /\
  backtracking_count_nodes 8 elapsed = Ok (2057, 92, elapsed).
Proof. repeat split; vm_compute; reflexivity. Qed.

(** C4: for every n >= 1 the exact counter returns, and its node count is
    at least its solution count. *)
Theorem node_count_ge_solutions (n : Z) (elapsed : Q) :
  1 <= n ->
  exists nodes sols,
    backtracking_count_nodes n elapsed = Ok (nodes, sols, elapsed) /\
    sols <= nodes.
Proof.
  intros Hn. unfold backtracking_count_nodes.
  destruct (backtrack_counts (S (Z.to_nat n)) n 0
              {| board_of := replicate_py (-1) n; node_count := 0;
                 solutions := 0 |})
    as (st & Hrun & _ & Hsol & Hnodes).
  - lia.
  - simpl. rewrite len_replicate_py. lia.
  - lia.
  - rewrite Hrun. simpl in *. exists (node_count st), (solutions st).
    split; [reflexivity|lia].
Qed.

Lemma node_count_ge_solutions_witness :
  exists nodes sols,
    backtracking_count_nodes 4 0 = Ok (nodes, sols, 0%Q) /\ sols <= nodes.
Proof. apply (node_count_ge_solutions 4 0). lia. Defined.




(** ** The row scan *)

Lemma accepts_safe_at (n : Z) (board : list Z) (row col : Z) :
  row <= len board -> accepts n board row col = safe_at board row col.
Proof.
  intros Hrow. unfold accepts. rewrite is_safe_value by assumption.
  reflexivity.
Qed.

Lemma get_valid_positions_loop_value (board : list Z) (row n : Z)
    (cols valid : list Z) :
  row <= len board ->
  get_valid_positions_loop board row n cols valid
  = Ok (valid ++ filter (fun c => accepts n board row c = true) cols, board).
Proof.
  intros Hrow. revert valid.
  induction cols as [|col rest IH]; intros valid; simpl.
  - rewrite app_nil_r. reflexivity.
  - rewrite filter_cons, (accepts_safe_at n board row col Hrow).
    rewrite is_safe_value by assumption. simpl.
    destruct (safe_at board row col).
    + rewrite IH, decide_True by reflexivity.
      rewrite <- app_assoc. reflexivity.
    + rewrite IH, decide_False by discriminate. reflexivity.
Qed.

(** The scan of the source returns the columns the validator accepts, in
    ascending order, and hands the board back. *)
Lemma get_valid_positions_value (board : list Z) (row n : Z) :
  row <= len board ->
  get_valid_positions board row n = Ok (safe_columns n board row, board).
Proof.
  intros Hrow. unfold get_valid_positions, safe_columns.
  rewrite get_valid_positions_loop_value by assumption. reflexivity.
Qed.

Lemma filter_all (P : Z -> Prop) `{forall x, Decision (P x)} (l : list Z) :
  (forall x, P x) -> filter P l = l.
Proof.
  intros HP. induction l as [|x l IH]; [reflexivity|].
  rewrite filter_cons, decide_True by apply HP. rewrite IH. reflexivity.
Qed.

(** With no earlier row to compare with, every column is accepted. *)
Lemma safe_columns_first_row (n : Z) (board : list Z) :
  safe_columns n board 0 = range n.
Proof. unfold safe_columns. apply filter_all. reflexivity. Qed.

(** ** The descent of the specification *)

Lemma descent_lower (n : Z) (board : list Z) (row product acc v : Z) :
  descent n board row product acc v -> 0 <= product -> acc <= v.
Proof.
  induction 1 as [| |board row product acc c v Hrow Hm Hc Hd IH];
    intros Hp; [lia|lia|].
  pose proof (len_nonneg (safe_columns n board row)).
  assert (0 <= product * len (safe_columns n board row)) by nia.
  specialize (IH ltac:(assumption)). lia.
Qed.

Lemma trial_value_lower (n v : Z) : 1 <= n -> trial_value n v -> 1 + n <= v.
Proof.
  intros Hn Hd. unfold trial_value in Hd.
  inversion Hd as [ ? ? ? ? Hrow | ? ? ? ? Hrow Hm
                  | ? ? ? ? c ? Hrow Hm Hc Hrest ]; subst.
  - lia.
  - rewrite safe_columns_first_row, len_range in Hm. lia.
  - rewrite safe_columns_first_row, len_range in Hrest.
    apply descent_lower in Hrest; lia.
Qed.

Lemma trial_value_one (v : Z) : trial_value 1 v -> v = 2.
Proof.
  unfold trial_value. intros Hd.
  inversion Hd as [ ? ? ? ? Hrow | ? ? ? ? Hrow Hm
                  | ? ? ? ? c ? Hrow Hm Hc Hrest ]; subst.
  - lia.
  - rewrite safe_columns_first_row, len_range in Hm. lia.
  - rewrite safe_columns_first_row, len_range in Hrest.
    inversion Hrest as [ ? ? ? ? Hrow' | ? ? ? ? Hrow' Hm'
                       | ? ? ? ? c' ? Hrow' Hm' Hc' Hrest' ]; subst.
    + reflexivity.
    + lia.
    + lia.
Qed.

(** ** Sums and quotients *)

Lemma foldl_add_shift (l : list Z) (a : Z) :
  foldl Z.add a l = a + foldl Z.add 0 l.
Proof.
  revert a. induction l as [|x l IH]; intros a; simpl; [lia|].
  rewrite (IH (a + x)), (IH (0 + x)). lia.
Qed.

Lemma sum_constant (c : Z) (l : list Z) :
  Forall (fun v => v = c) l -> sum l = c * len l.
Proof.
  unfold sum, len. induction 1 as [|x l -> _ IH]; simpl; [lia|].
  rewrite foldl_add_shift, IH. lia.
Qed.

Lemma sum_between (lo hi : Z) (l : list Z) :
  Forall (fun v => lo <= v <= hi) l ->
  lo * len l <= sum l <= hi * len l.
Proof.
  unfold sum, len. induction 1 as [|x l Hx _ IH]; simpl; [lia|].
  rewrite foldl_add_shift. lia.
Qed.

Lemma sum_at_least (lo : Z) (l : list Z) :
  Forall (fun v => lo <= v) l -> lo * len l <= sum l.
Proof.
  unfold sum, len. induction 1 as [|x l Hx _ IH]; simpl; [lia|].
  rewrite foldl_add_shift. lia.
Qed.

Lemma float_limit_large : 2 < float_limit.
Proof. vm_compute. reflexivity. Qed.

Lemma truediv_float_positive (x : Q) (k : Z) :
  1 <= k ->
  truediv_float x k
  = if float_limit <=? k then Raise OverflowError
    else Ok (x / inject_Z k)%Q.
Proof.
  intros Hk. unfold truediv_float. rewrite Z.abs_eq by lia.
  destruct (float_limit <=? k); [reflexivity|].
  destruct (Z.eqb_spec k 0); [lia|reflexivity].
Qed.

Lemma truediv_positive (a k : Z) :
  0 <= a -> 1 <= k ->
  truediv a k
  = if float_limit * k <=? a then Raise OverflowError
    else Ok (Qred (inject_Z a / inject_Z k)%Q).
Proof.
  intros Ha Hk. unfold truediv. rewrite !Z.abs_eq by lia.
  destruct (Z.eqb_spec k 0); [lia|reflexivity].
Qed.

Lemma Qred_inject_Z (c : Z) : Qred (inject_Z c) = inject_Z c.
Proof.
  unfold Qred, inject_Z.
  pose proof (Z.ggcd_gcd c 1) as Hg.
  pose proof (Z.ggcd_correct_divisors c 1) as Hd.
  destruct (Z.ggcd c 1) as [d [aa bb]]. simpl in Hg.
  rewrite Z.gcd_1_r in Hg. subst d. destruct Hd as [Ha Hb].
  rewrite Z.mul_1_l in Ha, Hb. subst c bb. reflexivity.
Qed.

(** The mean of [k] values that add up to [c * k] is [c], exactly. *)
Lemma mean_of_multiple (c k : Z) :
  1 <= k -> Qred (inject_Z (c * k) / inject_Z k) = inject_Z c.
Proof.
  intros Hk. rewrite <- (Qred_inject_Z c).
  apply Qred_complete. rewrite inject_Z_mult.
  apply Qdiv_mult_l. unfold Qeq. simpl. lia.
Qed.

(** ** The estimator *)

Section EstimatorProperties.
Context {G : Type} `{RandomSource G}.

Lemma choice_member (g : G) (seq : list Z) :
  seq <> [] -> exists c g', choice g seq = Ok (c, g') /\ c ∈ seq.
Proof.
  intros Hne. destruct seq as [|x rest]; [contradiction|].
  unfold choice. pose proof (randbelow_lt g (length (x :: rest))) as Hlt.
  destruct (randbelow g (length (x :: rest))) as [k g'].
  simpl fst in Hlt. specialize (Hlt ltac:(simpl; lia)).
  destruct (lookup_lt_is_Some_2 (x :: rest) k Hlt) as [c Hc].
  rewrite Hc. exists c, g'. split; [reflexivity|].
  eapply list_elem_of_lookup_2. eassumption.
Qed.

(** The row loop of the source, started at [row] with the rows up to
    [n - 1] ahead, returns a value the descent of the specification
    allows. *)
Lemma trial_rows_descent (n : Z) (k : nat) :
  forall (row : Z) (board : list Z) (estimate product : Z) (g : G),
    0 <= row -> row + Z.of_nat k = n -> len board = n ->
    exists v g',
      trial_rows n (seqZ row (Z.of_nat k)) board estimate product g
      = Ok (v, g') /\
      descent n board row product estimate v.
Proof.
  induction k as [|k IH]; intros row board estimate product g Hrow Hk Hlen.
  - simpl. exists estimate, g. split; [reflexivity|].
    apply descent_end. lia.
  - rewrite seqZ_cons by lia.
    replace (Z.pred (Z.of_nat (S k))) with (Z.of_nat k) by lia.
    cbn [trial_rows].
    rewrite get_valid_positions_value by lia. cbn [bind].
    destruct (Z.eqb_spec (len (safe_columns n board row)) 0) as [Hm|Hm].
    + exists estimate, g. split; [reflexivity|].
      apply descent_dead_end; [lia|assumption].
    + destruct (choice_member g (safe_columns n board row))
        as (c & g' & Hchoice & Hc).
      { intros Hnil. rewrite Hnil in Hm. apply Hm. reflexivity. }
      rewrite Hchoice. cbn [bind].
      rewrite setitem_in_range by lia. cbn [bind].
      destruct (IH (Z.succ row) (<[Z.to_nat row := c]> board)
                  (estimate + product * len (safe_columns n board row))
                  (product * len (safe_columns n board row)) g')
        as (v & g'' & Hrun & Hd).
      * lia.
      * lia.
      * rewrite len_insert. assumption.
      * exists v, g''. split; [exact Hrun|].
        apply descent_commit with (c := c).
        -- lia.
        -- assumption.
        -- assumption.
        -- replace (row + 1) with (Z.succ row) by lia. exact Hd.
Qed.

(** Every trial returns, whatever [n] and the state of the generator, and
    its value is one the specification's descent allows. *)
Lemma trial_sound (n : Z) (g : G) :
  exists v g', trial n g = Ok (v, g') /\ trial_value n v.
Proof.
  unfold trial, trial_value, unplaced.
  destruct (Z.le_gt_cases 0 n) as [Hn|Hn].
  - pose proof (trial_rows_descent n (Z.to_nat n) 0 (replicate_py (-1) n)
                  1 1 g) as Hrun.
    rewrite Z2Nat.id in Hrun by assumption.
    apply Hrun; [lia|lia|]. rewrite len_replicate_py. lia.
  - rewrite range_nonpos by lia. exists 1, g. split; [reflexivity|].
    apply descent_end. lia.
Qed.

Lemma trials_loop_sound (n : Z) (ts : list Z) :
  forall (estimates : list Z) (g : G),
    exists fresh g',
      trials_loop n ts estimates g = Ok (estimates ++ fresh, g') /\
      length fresh = length ts /\
      Forall (trial_value n) fresh.
Proof.
  induction ts as [|t ts IH]; intros estimates g; simpl.
  - exists [], g. rewrite app_nil_r. repeat split. constructor.
  - destruct (trial_sound n g) as (v & g1 & Hrun & Hv).
    rewrite Hrun. cbn [bind].
    destruct (IH (estimates ++ [v]) g1) as (fresh & g2 & Hloop & Hlen & Hall).
    exists (v :: fresh), g2. rewrite Hloop, <- app_assoc. simpl.
    repeat split; [lia|]. constructor; assumption.
Qed.

Lemma trial_value_positive (n v : Z) : trial_value n v -> 1 <= v.
Proof.
  intros Hd. unfold trial_value in Hd. apply descent_lower in Hd; lia.
Qed.

(** With at least one trial requested, the loop over the trials returns
    one value per trial, each allowed by the descent, and the call ends as
    its two divisions end: with these values, their exact mean and the
    elapsed time per trial, unless the number of trials or the mean is
    beyond the range of a float. *)
Lemma monte_carlo_estimate_outcome (n num_trials : Z) (seed : option Z)
    (g : G) (elapsed : Q) :
  1 <= num_trials ->
  exists estimates g',
    trials_loop n (range num_trials) []
      (match seed with Some s => seed_rng s | None => g end)
    = Ok (estimates, g') /\
    len estimates = num_trials /\
    Forall (trial_value n) estimates /\
    monte_carlo_estimate n num_trials seed g elapsed
    = if float_limit <=? num_trials then Raise OverflowError
      else if float_limit * num_trials <=? sum estimates
           then Raise OverflowError
           else Ok (Qred (inject_Z (sum estimates) / inject_Z num_trials),
                    estimates, (elapsed / inject_Z num_trials)%Q).
Proof.
  intros Hk. unfold monte_carlo_estimate.
  destruct (trials_loop_sound n (range num_trials) []
              (match seed with Some s => seed_rng s | None => g end))
    as (fresh & g' & Hloop & Hlen & Hall).
  rewrite app_nil_l in Hloop. rewrite Hloop. cbn [bind].
  assert (Hk' : len fresh = num_trials).
  { pose proof (len_range num_trials) as Hr. unfold len in *. lia. }
  exists fresh, g'. split; [reflexivity|]. split; [exact Hk'|].
  split; [exact Hall|].
  assert (Hsum : 0 <= sum fresh).
  { assert (1 * len fresh <= sum fresh); [|lia].
    apply sum_at_least. eapply Forall_impl; [exact Hall|].
    intros v Hv. apply (trial_value_positive n v Hv). }
  rewrite truediv_float_positive by assumption.
  destruct (float_limit <=? num_trials); [reflexivity|]. cbn [bind].
  rewrite Hk', truediv_positive by assumption.
  destruct (float_limit * num_trials <=? sum fresh); reflexivity.
Qed.

(** Such a call returns the values of its trials or raises
    [OverflowError]; nothing else. *)
Lemma monte_carlo_estimate_ends (n num_trials : Z) (seed : option Z)
    (g : G) (elapsed : Q) :
  1 <= num_trials ->
  exists estimates g',
    trials_loop n (range num_trials) []
      (match seed with Some s => seed_rng s | None => g end)
    = Ok (estimates, g') /\
    len estimates = num_trials /\
    Forall (trial_value n) estimates /\
    ((exists average avg_time,
        monte_carlo_estimate n num_trials seed g elapsed
        = Ok (average, estimates, avg_time)) \/
     monte_carlo_estimate n num_trials seed g elapsed = Raise OverflowError).
Proof.
  intros Hk.
  destruct (monte_carlo_estimate_outcome n num_trials seed g elapsed Hk)
    as (estimates & g' & Hloop & Hlen & Hall & Hrun).
  exists estimates, g'. repeat (split; [assumption|]).
  rewrite Hrun.
  destruct (float_limit <=? num_trials); [right; reflexivity|].
  destruct (float_limit * num_trials <=? sum estimates);
    [right; reflexivity|].
  left. eexists _, _. reflexivity.
Qed.

End EstimatorProperties.

(** C1: for every n >= 0, whatever the generator draws, the loop over the
    trials (at least one) produces one value per trial, and each of them
    is the accumulator of the specification's descent: seeded at 1, adding
    at each row the running product of the numbers of safe columns,
    stopping at a row without a safe column, committing one safe column
    otherwise.  The call returns exactly these values, unless one of its
    closing divisions leaves the range of a float and raises
    [OverflowError]. *)
Theorem trial_values_follow_descent {G : Type} `{RandomSource G}
    (n num_trials : Z) (seed : option Z) (g : G) (elapsed : Q) :
  0 <= n -> 1 <= num_trials ->
  exists estimates g',
    trials_loop n (range num_trials) []
      (match seed with Some s => seed_rng s | None => g end)
    = Ok (estimates, g') /\
    len estimates = num_trials /\
    Forall (trial_value n) estimates /\
    ((exists average avg_time,
        monte_carlo_estimate n num_trials seed g elapsed
        = Ok (average, estimates, avg_time)) \/
     monte_carlo_estimate n num_trials seed g elapsed = Raise OverflowError).
Proof.
  intros _ Hk. apply monte_carlo_estimate_ends. exact Hk.
Qed.

Lemma trial_values_follow_descent_witness :
  exists estimates g',
    trials_loop 5 (range 4) [] (seed_rng 7 : Z) = Ok (estimates, g') /\
    len estimates = 4 /\
    Forall (trial_value 5) estimates /\
    ((exists average avg_time,
        monte_carlo_estimate 5 4 (Some 7) (0 : Z) 1
        = Ok (average, estimates, avg_time)) \/
     monte_carlo_estimate 5 4 (Some 7) (0 : Z) 1 = Raise OverflowError).
Proof.
  apply (trial_values_follow_descent 5 4 (Some 7) (0 : Z) 1); lia.
Defined.

(** C10: for every n >= 1 each per-trial value is at least 1 + n: the
    first row offers all n columns.  The loop over the trials (at least
    one) produces these values, and the call returns exactly them, unless
    one of its closing divisions raises [OverflowError]. *)
Theorem trial_values_at_least_root_and_first_row {G : Type} `{RandomSource G}
    (n num_trials : Z) (seed : option Z) (g : G) (elapsed : Q) :
  1 <= n -> 1 <= num_trials ->
  exists estimates g',
    trials_loop n (range num_trials) []
      (match seed with Some s => seed_rng s | None => g end)
    = Ok (estimates, g') /\
    len estimates = num_trials /\
    Forall (fun v => 1 + n <= v) estimates /\
    ((exists average avg_time,
        monte_carlo_estimate n num_trials seed g elapsed
        = Ok (average, estimates, avg_time)) \/
     monte_carlo_estimate n num_trials seed g elapsed = Raise OverflowError).
Proof.
  intros Hn Hk.
  destruct (monte_carlo_estimate_ends n num_trials seed g elapsed Hk)
    as (estimates & g' & Hloop & Hlen & Hall & Hrun).
  exists estimates, g'. split; [exact Hloop|]. split; [exact Hlen|].
  split; [|exact Hrun].
  eapply Forall_impl; [exact Hall|].
  intros v Hv. apply trial_value_lower; assumption.
Qed.

Lemma trial_values_at_least_root_and_first_row_witness :
  exists estimates g',
    trials_loop 6 (range 3) [] (2024 : Z) = Ok (estimates, g') /\
    len estimates = 3 /\
    Forall (fun v => 1 + 6 <= v) estimates /\
    ((exists average avg_time,
        monte_carlo_estimate 6 3 None (2024 : Z) 1
        = Ok (average, estimates, avg_time)) \/
     monte_carlo_estimate 6 3 None (2024 : Z) 1 = Raise OverflowError).
Proof.
  apply (trial_values_at_least_root_and_first_row 6 3 None (2024 : Z) 1); lia.
Defined.



(** C6 (as amended): for n = 1 and at least one trial, every per-trial
    value is exactly 2 (the root and the single square of the only row),
    and so is the average the call returns.  The mean of twos is never
    out of range; the call returns unless the number of trials itself is
    too large for the division of the elapsed time by it. *)
Theorem single_square_estimate {G : Type} `{RandomSource G}
    (num_trials : Z) (seed : option Z) (g : G) (elapsed : Q) :
  1 <= num_trials ->
  exists estimates g',
    trials_loop 1 (range num_trials) []
      (match seed with Some s => seed_rng s | None => g end)
    = Ok (estimates, g') /\
    len estimates = num_trials /\
    Forall (fun v => v = 2) estimates /\
    monte_carlo_estimate 1 num_trials seed g elapsed
    = if float_limit <=? num_trials then Raise OverflowError
      else Ok (2%Q, estimates, (elapsed / inject_Z num_trials)%Q).
Proof.
  intros Hk.
  destruct (monte_carlo_estimate_outcome 1 num_trials seed g elapsed Hk)
    as (estimates & g' & Hloop & Hlen & Hall & Hrun).
  assert (Htwo : Forall (fun v => v = 2) estimates).
  { eapply Forall_impl; [exact Hall|]. intros v Hv.
    apply trial_value_one. exact Hv. }
  exists estimates, g'. repeat (split; [assumption|]).
  rewrite Hrun, (sum_constant 2 estimates Htwo), Hlen.
  destruct (float_limit <=? num_trials); [reflexivity|].
  pose proof float_limit_large as Hlarge.
  destruct (Z.leb_spec (float_limit * num_trials) (2 * num_trials)) as [Hle|_];
    [nia|].
  rewrite mean_of_multiple by lia. reflexivity.
Qed.

Lemma single_square_estimate_witness :
  exists estimates g',
    trials_loop 1 (range 3) [] (seed_rng 42 : Z) = Ok (estimates, g') /\
    len estimates = 3 /\
    Forall (fun v => v = 2) estimates /\
    monte_carlo_estimate 1 3 (Some 42) (0 : Z) 1
    = if float_limit <=? 3 then Raise OverflowError
      else Ok (2%Q, estimates, (1 / inject_Z 3)%Q).
Proof. apply (single_square_estimate 3 (Some 42) (0 : Z) 1). lia. Defined.

(** C6 (as stated) fails for three trials seeded with 42: the call does
    not return an average of 1 with every per-trial value 1. *)
Lemma single_square_estimate_not_one :
  ~ exists average estimates avg_time,
      monte_carlo_estimate 1 3 (Some 42) (0 : Z) 1
      = Ok (average, estimates, avg_time) /\
      (average == 1)%Q /\
      Forall (fun v => v = 1) estimates.
Proof.
  intros (average & estimates & avg_time & Hrun & Havg & _).
  vm_compute in Hrun. injection Hrun as <- _ _.
  vm_compute in Havg. discriminate.
Qed.

(** C8 (as amended): called with [num_trials <= 0] the estimator runs no
    trial (the loop returns no estimate and leaves the generator as
    seeded) and never returns.  It ends in an error of one of its two
    closing divisions, taken in the order of the source: for 0 the
    division of the elapsed time raises [ZeroDivisionError]; for a
    negative count within the range of a float that division goes through
    and the division of the sum of no estimates by their number, 0, raises
    [ZeroDivisionError]; for a negative count beyond that range the
    division of the elapsed time raises [OverflowError]. *)
Theorem no_trials_zero_division {G : Type} `{RandomSource G}
    (n num_trials : Z) (seed : option Z) (g : G) (elapsed : Q) :
  num_trials <= 0 ->
  trials_loop n (range num_trials) []
    (match seed with Some s => seed_rng s | None => g end)
  = Ok ([], match seed with Some s => seed_rng s | None => g end) /\
  (num_trials = 0 ->
   truediv_float elapsed num_trials = Raise ZeroDivisionError /\
   monte_carlo_estimate n num_trials seed g elapsed
   = Raise ZeroDivisionError) /\
  (- float_limit < num_trials < 0 ->
   truediv_float elapsed num_trials
   = Ok (elapsed / inject_Z num_trials)%Q /\
   truediv (sum []) (len []) = Raise ZeroDivisionError /\
   monte_carlo_estimate n num_trials seed g elapsed
   = Raise ZeroDivisionError) /\
  (num_trials <= - float_limit ->
   truediv_float elapsed num_trials = Raise OverflowError /\
   monte_carlo_estimate n num_trials seed g elapsed = Raise OverflowError).
Proof.
  intros Hk. pose proof float_limit_large as Hlarge.
  unfold monte_carlo_estimate.
  rewrite range_nonpos by assumption. cbn [trials_loop bind].
  split; [reflexivity|].
  assert (Hfloat : truediv_float elapsed num_trials
                   = if num_trials <=? - float_limit then Raise OverflowError
                     else if num_trials =? 0 then Raise ZeroDivisionError
                     else Ok (elapsed / inject_Z num_trials)%Q).
  { unfold truediv_float. rewrite Z.abs_neq by lia.
    destruct (Z.leb_spec float_limit (- num_trials)),
             (Z.leb_spec num_trials (- float_limit)); try lia; reflexivity. }
  rewrite Hfloat. split; [|split].
  - intros ->. destruct (Z.leb_spec 0 (- float_limit)); [lia|].
    split; reflexivity.
  - intros Hrange.
    destruct (Z.leb_spec num_trials (- float_limit)); [lia|].
    destruct (Z.eqb_spec num_trials 0); [lia|].
    split; [reflexivity|]. split; reflexivity.
  - intros Hbig.
    destruct (Z.leb_spec num_trials (- float_limit)); [|lia].
    split; reflexivity.
Qed.

Lemma no_trials_zero_division_witness :
  trials_loop 4 (range (-2)) [] (seed_rng 42 : Z) = Ok ([], seed_rng 42) /\
  (-2 = 0 ->
   truediv_float 1 (-2) = Raise ZeroDivisionError /\
   monte_carlo_estimate 4 (-2) (Some 42) (0 : Z) 1 = Raise ZeroDivisionError) /\
  (- float_limit < -2 < 0 ->
   truediv_float 1 (-2) = Ok (1 / inject_Z (-2))%Q /\
   truediv (sum []) (len []) = Raise ZeroDivisionError /\
   monte_carlo_estimate 4 (-2) (Some 42) (0 : Z) 1 = Raise ZeroDivisionError) /\
  (-2 <= - float_limit ->
   truediv_float 1 (-2) = Raise OverflowError /\
   monte_carlo_estimate 4 (-2) (Some 42) (0 : Z) 1 = Raise OverflowError).
Proof. apply (no_trials_zero_division 4 (-2) (Some 42) (0 : Z) 1). lia. Defined.

(** C8 (as stated) fails at [num_trials = 0]: the call is not turned down
    by an error of its own; the only error is the division by zero. *)
Lemma no_trials_only_zero_division :
  ~ exists e,
      monte_carlo_estimate 4 0 (Some 42) (0 : Z) 1 = Raise e /\
      e <> ZeroDivisionError.
Proof.
  intros (e & Hrun & Hother). vm_compute in Hrun.
  injection Hrun as <-. apply Hother. reflexivity.
Qed.

(** * Further properties of the code *)

(** ** The validator on any board *)

Lemma getitem_nonneg (l : list Z) (i : Z) :
  0 <= i ->
  getitem l i
  = match l !! Z.to_nat i with Some x => Ok x | None => Raise IndexError end.
Proof.
  intros Hi. unfold getitem, resolve.
  destruct (Z.ltb_spec i 0); [lia|].
  destruct (Z.leb_spec 0 i); [|lia]. simpl.
  destruct (Z.ltb_spec i (len l)) as [Hlt|Hge]; [reflexivity|].
  rewrite (proj2 (lookup_ge_None l (Z.to_nat i))); [reflexivity|].
  unfold len in Hge. lia.
Qed.

Lemma is_safe_loop_agree (b1 b2 : list Z) (row col : Z) (rows : list Z) :
  Forall (fun i => 0 <= i /\ b1 !! Z.to_nat i = b2 !! Z.to_nat i) rows ->
  value_of (is_safe_loop b1 row col rows)
  = value_of (is_safe_loop b2 row col rows).
Proof.
  induction 1 as [|i rest [Hi Heq] _ IH]; simpl; [reflexivity|].
  rewrite !getitem_nonneg by assumption. rewrite Heq.
  destruct (b2 !! Z.to_nat i) as [q|]; simpl; [|reflexivity].
  destruct (q =? col); [reflexivity|].
  destruct (Z.abs (q - col) =? Z.abs (i - row)); [reflexivity|exact IH].
Qed.

(** X1: the answer of [is_safe], an [IndexError] included, depends on the
    rows below [row] only: two boards with the same first [row] entries
    get the same answer. *)
Theorem is_safe_reads_rows_below (b1 b2 : list Z) (row col n : Z) :
  take (Z.to_nat row) b1 = take (Z.to_nat row) b2 ->
  value_of (is_safe b1 row col n) = value_of (is_safe b2 row col n).
Proof.
  intros Htake. unfold is_safe. apply is_safe_loop_agree.
  apply Forall_forall. intros i Hi. apply in_range in Hi.
  split; [lia|].
  rewrite <- (lookup_take_lt b1 (Z.to_nat row)) by lia.
  rewrite <- (lookup_take_lt b2 (Z.to_nat row)) by lia.
  rewrite Htake. reflexivity.
Qed.

Lemma is_safe_reads_rows_below_witness :
  value_of (is_safe [1; 3; 0; 2] 2 0 4) = value_of (is_safe [1; 3; -1] 2 0 4).
Proof.
  apply (is_safe_reads_rows_below [1; 3; 0; 2] [1; 3; -1] 2 0 4).
  reflexivity.
Defined.

Lemma is_safe_loop_app (board : list Z) (row col : Z) (xs ys : list Z) :
  is_safe_loop board row col (xs ++ ys)
  = match is_safe_loop board row col xs with
    | Ok (true, _) => is_safe_loop board row col ys
    | other => other
    end.
Proof.
  induction xs as [|i xs IH]; simpl; [reflexivity|].
  destruct (getitem board i) as [q| |]; simpl; try reflexivity.
  destruct (q =? col); [reflexivity|].
  destruct (Z.abs (q - col) =? Z.abs (i - row)); [reflexivity|exact IH].
Qed.

Lemma clear_of_outside (board : list Z) (row col i : Z) :
  len board <= i -> clear_of board row col i = true.
Proof.
  intros Hi. unfold clear_of.
  rewrite (proj2 (lookup_ge_None board (Z.to_nat i))); [reflexivity|].
  unfold len in Hi. lia.
Qed.

Lemma forallb_app_true {A : Type} (f : A -> bool) (xs ys : list A) :
  Forall (fun y => f y = true) ys ->
  forallb f (xs ++ ys) = forallb f xs.
Proof.
  intros Hys. induction xs as [|x xs IH]; simpl.
  - induction Hys as [|y ys Hy _ IH]; simpl; [reflexivity|].
    rewrite Hy. exact IH.
  - rewrite IH. reflexivity.
Qed.

(** X2: on a board with fewer than [row] rows, [is_safe] answers [False]
    when one of the rows that are there attacks the square, and raises
    [IndexError] when none does; it never answers [True]. *)
Theorem is_safe_short_board_outcome (board : list Z) (row col n : Z) :
  len board < row ->
  (no_conflict board row col -> is_safe board row col n = Raise IndexError) /\
  (~ no_conflict board row col -> is_safe board row col n = Ok (false, board)).
Proof.
  intros Hshort.
  assert (Hsplit : range row
                   = range (len board) ++ seqZ (len board) (row - len board)).
  { unfold range. pose proof (len_nonneg board).
    replace row with (len board + (row - len board)) at 1 by lia.
    rewrite seqZ_app by lia. reflexivity. }
  assert (Hrun : is_safe board row col n
                 = if safe_at board row col then Raise IndexError
                   else Ok (false, board)).
  { unfold is_safe, safe_at. rewrite Hsplit, is_safe_loop_app.
    rewrite is_safe_loop_value by (apply range_within; lia).
    rewrite forallb_app_true.
    - destruct (forallb (clear_of board row col) (range (len board)));
        [|reflexivity].
      rewrite seqZ_cons by lia. simpl.
      rewrite getitem_nonneg by apply len_nonneg.
      rewrite (proj2 (lookup_ge_None board (Z.to_nat (len board))));
        [reflexivity|unfold len; lia].
    - apply Forall_forall. intros i Hi. apply elem_of_seqZ in Hi.
      apply clear_of_outside. lia. }
  rewrite Hrun. split; intros Hc.
  - apply safe_at_no_conflict in Hc. rewrite Hc. reflexivity.
  - destruct (safe_at board row col) eqn:Hs; [|reflexivity].
    exfalso. apply Hc, safe_at_no_conflict, Hs.
Qed.

Lemma is_safe_short_board_outcome_witness :
  (no_conflict [0] 3 5 -> is_safe [0] 3 5 8 = Raise IndexError) /\
  (~ no_conflict [0] 3 5 -> is_safe [0] 3 5 8 = Ok (false, [0])).
Proof. apply (is_safe_short_board_outcome [0] 3 5 8). reflexivity. Defined.

(** ** The row scan, characterised *)

Lemma StronglySorted_seqZ (m : Z) (k : nat) :
  StronglySorted Z.lt (seqZ m (Z.of_nat k)).
Proof.
  revert m. induction k as [|k IH]; intros m.
  - constructor.
  - rewrite seqZ_cons by lia.
    replace (Z.pred (Z.of_nat (S k))) with (Z.of_nat k) by lia.
    constructor; [apply IH|].
    apply Forall_seqZ. intros j Hj. lia.
Qed.

Lemma StronglySorted_range (n : Z) : StronglySorted Z.lt (range n).
Proof.
  unfold range. destruct (Z.le_gt_cases 0 n) as [Hn|Hn].
  - rewrite <- (Z2Nat.id n) by assumption. apply StronglySorted_seqZ.
  - rewrite seqZ_nil by lia. constructor.
Qed.

Lemma StronglySorted_filter_keep (P : Z -> Prop) `{forall x, Decision (P x)}
    (l : list Z) :
  StronglySorted Z.lt l -> StronglySorted Z.lt (filter P l).
Proof.
  induction 1 as [|x l Hl IH Hx]; [constructor|].
  rewrite filter_cons. destruct (decide (P x)); [|exact IH].
  constructor; [exact IH|].
  apply Forall_forall. intros y Hy. apply list_elem_of_filter in Hy as [_ Hy].
  rewrite Forall_forall in Hx. apply Hx, Hy.
Qed.

(** X3: for a row inside the board, [get_valid_positions] returns exactly
    the columns of [0, n) that no earlier row attacks, in strictly
    ascending order, and leaves the board as it was. *)
Theorem get_valid_positions_exact (board : list Z) (row n : Z) :
  row <= len board ->
  exists valid,
    get_valid_positions board row n = Ok (valid, board) /\
    (forall c, c ∈ valid <-> 0 <= c < n /\ no_conflict board row c) /\
    StronglySorted Z.lt valid.
Proof.
  intros Hrow. exists (safe_columns n board row). split; [|split].
  - apply get_valid_positions_value, Hrow.
  - intros c. unfold safe_columns.
    rewrite list_elem_of_filter, in_range, accepts_safe_at by assumption.
    rewrite safe_at_no_conflict. tauto.
  - apply StronglySorted_filter_keep, StronglySorted_range.
Qed.

Lemma get_valid_positions_exact_witness :
  exists valid,
    get_valid_positions [1; 3; -1; -1] 2 4 = Ok (valid, [1; 3; -1; -1]) /\
    (forall c, c ∈ valid <-> 0 <= c < 4 /\ no_conflict [1; 3; -1; -1] 2 c) /\
    StronglySorted Z.lt valid.
Proof. apply (get_valid_positions_exact [1; 3; -1; -1] 2 4). vm_compute. discriminate. Defined.

(** ** What the exact counter counts *)

Lemma len_app (l k : list Z) : len (l ++ k) = len l + len k.
Proof. unfold len. rewrite length_app. lia. Qed.

Lemma forallb_agree {A : Type} (f g : A -> bool) (l : list A) :
  Forall (fun x => f x = g x) l -> forallb f l = forallb g l.
Proof.
  induction 1 as [|x l Hx _ IH]; simpl; [reflexivity|].
  rewrite Hx, IH. reflexivity.
Qed.

Lemma safe_at_app (p rest : list Z) (row col : Z) :
  row <= len p -> safe_at (p ++ rest) row col = safe_at p row col.
Proof.
  intros Hrow. unfold safe_at. apply forallb_agree.
  apply Forall_forall. intros i Hi. apply in_range in Hi.
  unfold clear_of. rewrite lookup_app_l; [reflexivity|].
  unfold len in Hrow. lia.
Qed.

Lemma insert_at_end (p : list Z) (x y : Z) (rest : list Z) :
  <[length p := y]> (p ++ x :: rest) = p ++ y :: rest.
Proof.
  induction p as [|a p IH]; simpl; [reflexivity|].
  f_equal. exact IH.
Qed.

Lemma board_with_open (n : Z) (p : list Z) :
  len p < n ->
  board_with n p = p ++ unplaced :: replicate_py unplaced (n - len p - 1).
Proof.
  intros Hp. unfold board_with, replicate_py.
  replace (Z.to_nat (n - len p)) with (S (Z.to_nat (n - len p - 1))) by lia.
  reflexivity.
Qed.

Lemma board_with_snoc (n : Z) (p : list Z) (c : Z) :
  board_with n (p ++ [c]) = p ++ c :: replicate_py unplaced (n - len p - 1).
Proof.
  unfold board_with. rewrite len_app, <- app_assoc. simpl.
  replace (n - (len p + len [c])) with (n - len p - 1)
    by (unfold len; simpl; lia).
  reflexivity.
Qed.

Lemma len_board_with (n : Z) (p : list Z) :
  len p <= n -> len (board_with n p) = n.
Proof.
  intros Hp. unfold board_with. rewrite len_app, len_replicate_py. lia.
Qed.

Lemma setitem_board_with_place (n : Z) (p : list Z) (c : Z) :
  len p < n ->
  setitem (board_with n p) (len p) c = Ok (board_with n (p ++ [c])).
Proof.
  intros Hp. pose proof (len_nonneg p).
  rewrite setitem_in_range by (rewrite len_board_with; lia).
  rewrite board_with_open, board_with_snoc by assumption.
  unfold len. rewrite Nat2Z.id, insert_at_end. reflexivity.
Qed.

Lemma setitem_board_with_clear (n : Z) (p : list Z) (c : Z) :
  len p < n ->
  setitem (board_with n (p ++ [c])) (len p) unplaced = Ok (board_with n p).
Proof.
  intros Hp. pose proof (len_nonneg p).
  rewrite setitem_in_range.
  - rewrite board_with_snoc, (board_with_open n p) by assumption.
    unfold len. rewrite Nat2Z.id, insert_at_end. reflexivity.
  - rewrite len_board_with; [lia|]. rewrite len_app. unfold len in *. simpl. lia.
Qed.

(** One call of [backtrack] on the board that holds [p]: it returns, the
    board is as before, and the counters have advanced by the number of
    placements passed through and the number of complete ones among them. *)
Lemma backtrack_placements (d : nat) :
  forall (fuel : nat) (n : Z) (p : list Z) (st : search_state),
    len p + Z.of_nat d = n -> (d < fuel)%nat ->
    board_of st = board_with n p ->
    exists st',
      backtrack fuel n (len p) st = Ok st' /\
      board_of st' = board_with n p /\
      node_count st'
      = node_count st + Z.of_nat (length (placements_from d n p)) /\
      solutions st'
      = solutions st
        + Z.of_nat (length (filter (complete n) (placements_from d n p))).
Proof.
  induction d as [|d IH]; intros fuel n p st Hn Hfuel Hboard;
    (destruct fuel as [|fuel]; [lia|]); cbn [backtrack placements_from].
  - destruct (Z.eqb_spec (len p) n) as [_|Hne]; [|lia].
    eexists. split; [reflexivity|].
    rewrite filter_cons_True by (unfold complete; lia).
    rewrite filter_nil. simpl.
    split; [assumption|split; lia].
  - destruct (Z.eqb_spec (len p) n) as [Heq|_]; [lia|].
    rewrite filter_cons_False by (unfold complete; lia).
    set (below := fun c : Z =>
           if safe_at p (len p) c then placements_from d n (p ++ [c])
           else []).
    assert (Hloop : forall (cols : list Z) (t : search_state),
      board_of t = board_with n p ->
      exists t',
        for_each
          (fun col st0 =>
             do '(safe, board) <- is_safe (board_of st0) (len p) col n ;;
             if safe : bool then
               do placed <- setitem board (len p) col ;;
               do st' <- backtrack fuel n (len p + 1)
                           (with_board st0 placed) ;;
               do cleared <- setitem (board_of st') (len p) (-1) ;;
               Ok (with_board st' cleared)
             else Ok (with_board st0 board)) cols t = Ok t' /\
        board_of t' = board_with n p /\
        node_count t' = node_count t + Z.of_nat (length (cols ≫= below)) /\
        solutions t'
        = solutions t
          + Z.of_nat (length (filter (complete n) (cols ≫= below)))).
    { induction cols as [|c cols IHc]; intros t Ht.
      - exists t. split; [reflexivity|]. simpl.
        split; [assumption|split; lia].
      - cbn [for_each]. rewrite bind_cons, filter_app, !length_app.
        rewrite Ht, is_safe_value by (rewrite len_board_with; lia).
        cbn [bind]. unfold board_with at 1.
        rewrite safe_at_app by lia. unfold below at 1 3.
        destruct (safe_at p (len p) c).
        + fold (board_with n p).
          rewrite setitem_board_with_place by lia. cbn [bind].
          destruct (IH fuel n (p ++ [c])
                      (with_board t (board_with n (p ++ [c]))))
            as (u & Hu & Hub & Hun & Hus).
          * rewrite len_app. unfold len at 2. simpl. lia.
          * lia.
          * reflexivity.
          * replace (len (p ++ [c])) with (len p + 1) in Hu
              by (rewrite len_app; unfold len at 3; simpl; lia).
            rewrite Hu. cbn [bind]. rewrite Hub.
            change (-1) with unplaced.
            rewrite setitem_board_with_clear by lia. cbn [bind].
            destruct (IHc (with_board u (board_with n p)) eq_refl)
              as (t' & Ht' & Htb & Htn & Hts).
            exists t'. split; [exact Ht'|]. simpl in *.
            split; [assumption|split; lia].
        + fold (board_with n p).
          destruct (IHc (with_board t (board_with n p)) eq_refl)
            as (t' & Ht' & Htb & Htn & Hts).
          exists t'. split; [exact Ht'|]. simpl in *.
          split; [assumption|split; lia]. }
    destruct (Hloop (range n) (bump_nodes st) Hboard)
      as (t' & Ht' & Htb & Htn & Hts).
    exists t'. split; [exact Ht'|]. simpl in *.
    split; [assumption|split; lia].
Qed.

Lemma safe_at_next_row (n : Z) (p : list Z) (c : Z) :
  safe_at p (len p) c = true <->
  forall i a, p !! i = Some a ->
    a <> c /\ Z.abs (a - c) <> Z.of_nat (length p) - Z.of_nat i.
Proof.
  rewrite safe_at_no_conflict. unfold no_conflict, len. split.
  - intros Hnc i a Ha. pose proof (lookup_lt_Some _ _ _ Ha) as Hlt.
    destruct (Hnc (Z.of_nat i) a) as [H1 H2]; [lia| |].
    + rewrite Nat2Z.id. exact Ha.
    + split; [exact H1|lia].
  - intros Hall i a Hi Ha. destruct (Hall _ _ Ha) as [H1 H2].
    split; [exact H1|lia].
Qed.

Lemma extends_peacefully_refl (n : Z) (p : list Z) : extends_peacefully n p p.
Proof.
  split; [reflexivity|]. intros j b Hj Hb.
  apply lookup_lt_Some in Hb. lia.
Qed.

(** The placements passed through below [p] are exactly the peaceful
    continuations of [p] by at most [d] rows. *)
Lemma placements_from_spec (d : nat) (n : Z) :
  forall p q : list Z,
    q ∈ placements_from d n p <->
    extends_peacefully n p q /\ (length q <= length p + d)%nat.
Proof.
  induction d as [|d IH]; intros p q; cbn [placements_from].
  - rewrite list_elem_of_singleton. split.
    + intros ->. split; [apply extends_peacefully_refl|lia].
    + intros [[Hpre _] Hlen]. symmetry.
      apply prefix_length_eq; [exact Hpre|lia].
  - rewrite elem_of_cons, list_elem_of_bind. split.
    + intros [->|(c & Hq & Hc)].
      { split; [apply extends_peacefully_refl|lia]. }
      apply in_range in Hc.
      destruct (safe_at p (len p) c) eqn:Hsafe;
        [|apply elem_of_nil in Hq; contradiction].
      apply IH in Hq as [[Hpre Hbeyond] Hlen].
      rewrite length_app in Hlen, Hbeyond. simpl in Hlen, Hbeyond.
      pose proof (proj1 (safe_at_next_row n p c) Hsafe) as Hclear.
      assert (Hpq : p `prefix_of` q).
      { etransitivity; [|exact Hpre]. apply prefix_app_r. reflexivity. }
      assert (Hqc : q !! length p = Some c).
      { eapply prefix_lookup_Some; [|exact Hpre].
        apply list_lookup_middle. reflexivity. }
      split; [|lia]. split; [exact Hpq|].
      intros j b Hj Hb.
      destruct (decide (j = length p)) as [->|Hne].
      * rewrite Hqc in Hb. injection Hb as <-. split; [lia|].
        intros i a Hi Ha.
        apply Hclear.
        rewrite (prefix_lookup_lt p q i Hi Hpq). exact Ha.
      * apply Hbeyond; [lia|exact Hb].
    + intros [[Hpre Hbeyond] Hlen].
      destruct Hpre as [k ->]. destruct k as [|c k].
      { left. apply app_nil_r. }
      right. exists c.
      assert (Hqc : (p ++ c :: k) !! length p = Some c).
      { apply list_lookup_middle. reflexivity. }
      destruct (Hbeyond (length p) c (Nat.le_refl _) Hqc) as [Hc Hclear].
      assert (Hsafe : safe_at p (len p) c = true).
      { apply (safe_at_next_row n). intros i a Ha.
        apply Hclear.
        - apply lookup_lt_Some in Ha. exact Ha.
        - apply lookup_app_l_Some. exact Ha. }
      rewrite Hsafe. split; [|apply in_range; exact Hc].
      apply IH. rewrite !length_app in *. simpl in *.
      split; [|lia]. split.
      * exists k. rewrite <- app_assoc. reflexivity.
      * intros j b Hj Hb. rewrite length_app in Hj. simpl in Hj.
        apply Hbeyond; [lia|exact Hb].
Qed.

Lemma placements_from_NoDup (d : nat) (n : Z) :
  forall p : list Z, NoDup (placements_from d n p).
Proof.
  induction d as [|d IH]; intros p; cbn [placements_from].
  - apply NoDup_singleton.
  - apply NoDup_cons. split.
    + intros Hin. apply list_elem_of_bind in Hin as (c & Hp & _).
      destruct (safe_at p (len p) c);
        [|apply elem_of_nil in Hp; contradiction].
      apply placements_from_spec in Hp as [[Hpre _] _].
      apply prefix_length in Hpre. rewrite length_app in Hpre.
      simpl in Hpre. lia.
    + apply NoDup_bind.
      * intros c1 c2 q _ _ H1 H2.
        destruct (safe_at p (len p) c1);
          [|apply elem_of_nil in H1; contradiction].
        destruct (safe_at p (len p) c2);
          [|apply elem_of_nil in H2; contradiction].
        apply placements_from_spec in H1 as [[Hpre1 _] _].
        apply placements_from_spec in H2 as [[Hpre2 _] _].
        assert (Hq1 : q !! length p = Some c1).
        { eapply prefix_lookup_Some; [|exact Hpre1].
          apply list_lookup_middle. reflexivity. }
        assert (Hq2 : q !! length p = Some c2).
        { eapply prefix_lookup_Some; [|exact Hpre2].
          apply list_lookup_middle. reflexivity. }
        congruence.
      * intros c _. destruct (safe_at p (len p) c); [apply IH|constructor].
      * apply NoDup_seqZ.
Qed.

Lemma extends_peacefully_nil (n : Z) (q : list Z) :
  extends_peacefully n [] q <-> peaceful n q.
Proof.
  unfold extends_peacefully, peaceful. split.
  - intros [_ Hbeyond]. split.
    + intros j b Hb. apply (Hbeyond j b); [simpl; lia|exact Hb].
    + intros i j a b Hij Ha Hb.
      destruct (Hbeyond j b) as [_ Hclear]; [simpl; lia|exact Hb|].
      apply (Hclear i a Hij Ha).
  - intros [Hcols Hpairs]. split; [apply prefix_nil|].
    intros j b _ Hb. split; [apply (Hcols j b Hb)|].
    intros i a Hij Ha. apply (Hpairs i j a b Hij Ha Hb).
Qed.

(** The exact counter, for [n >= 0], in terms of the placements passed
    through from the empty board. *)
Lemma backtracking_count_nodes_placements (n : Z) (elapsed : Q) :
  0 <= n ->
  backtracking_count_nodes n elapsed
  = Ok (Z.of_nat (length (placements_from (Z.to_nat n) n [])),
        Z.of_nat (length (filter (complete n)
                            (placements_from (Z.to_nat n) n []))),
        elapsed).
Proof.
  intros Hn. unfold backtracking_count_nodes.
  destruct (backtrack_placements (Z.to_nat n) (S (Z.to_nat n)) n []
              {| board_of := replicate_py (-1) n; node_count := 0;
                 solutions := 0 |})
    as (st & Hrun & _ & Hnodes & Hsols).
  - unfold len. simpl. lia.
  - lia.
  - unfold board_with, len. simpl. rewrite Z.sub_0_r. reflexivity.
  - change (len []) with 0 in Hrun. rewrite Hrun. cbn [bind].
    rewrite Hnodes, Hsols. reflexivity.
Qed.

Lemma placements_peaceful (n : Z) (q : list Z) :
  0 <= n ->
  q ∈ placements_from (Z.to_nat n) n [] <-> peaceful n q /\ len q <= n.
Proof.
  intros Hn. rewrite placements_from_spec, extends_peacefully_nil.
  unfold len. simpl. split; intros [Hp Hlen]; (split; [exact Hp|lia]).
Qed.

(** X4: a call of [backtrack] for the row after a placement [p], on the
    board that holds [p] and nothing else, returns with the board exactly
    as it was: every queen it puts down, it takes up again. *)
Theorem backtrack_restores_board (fuel : nat) (n : Z) (p : list Z)
    (st : search_state) :
  len p <= n -> (Z.to_nat (n - len p) < fuel)%nat ->
  board_of st = board_with n p ->
  exists st',
    backtrack fuel n (len p) st = Ok st' /\ board_of st' = board_of st.
Proof.
  intros Hp Hfuel Hboard.
  destruct (backtrack_placements (Z.to_nat (n - len p)) fuel n p st)
    as (st' & Hrun & Hb & _); [lia|exact Hfuel|exact Hboard|].
  exists st'. split; [exact Hrun|]. rewrite Hb, Hboard. reflexivity.
Qed.

Lemma backtrack_restores_board_witness :
  exists st',
    backtrack 3 4 (len [1; 3])
      {| board_of := [1; 3; -1; -1]; node_count := 5; solutions := 0 |}
    = Ok st' /\
    board_of st' = [1; 3; -1; -1].
Proof.
  apply (backtrack_restores_board 3 4 [1; 3]
           {| board_of := [1; 3; -1; -1]; node_count := 5; solutions := 0 |});
    [vm_compute; discriminate | vm_compute; lia | reflexivity].
Defined.

(** X5: for [n >= 0] the node count returned by the exact counter is the
    number of peaceful placements of at most [n] rows, the empty one
    included: each is visited, and visited once. *)
Theorem node_count_is_number_of_placements (n : Z) (elapsed : Q) :
  0 <= n ->
  exists (visited : list (list Z)) (sols : Z),
    NoDup visited /\
    (forall q, q ∈ visited <-> peaceful n q /\ len q <= n) /\
    backtracking_count_nodes n elapsed
    = Ok (Z.of_nat (length visited), sols, elapsed).
Proof.
  intros Hn. eexists (placements_from (Z.to_nat n) n []), _.
  split; [apply placements_from_NoDup|]. split.
  - intros q. apply placements_peaceful, Hn.
  - apply backtracking_count_nodes_placements, Hn.
Qed.

Lemma node_count_is_number_of_placements_witness :
  exists (visited : list (list Z)) (sols : Z),
    NoDup visited /\
    (forall q, q ∈ visited <-> peaceful 4 q /\ len q <= 4) /\
    backtracking_count_nodes 4 0
    = Ok (Z.of_nat (length visited), sols, 0%Q).
Proof. apply (node_count_is_number_of_placements 4 0). lia. Defined.

(** X6: for [n >= 0] the solution count returned by the exact counter is
    the number of peaceful placements of exactly [n] rows, that is, of
    ways to put [n] queens on the board with no two attacking each
    other. *)
Theorem solutions_is_number_of_full_placements (n : Z) (elapsed : Q) :
  0 <= n ->
  exists (found : list (list Z)) (nodes : Z),
    NoDup found /\
    (forall q, q ∈ found <-> peaceful n q /\ len q = n) /\
    backtracking_count_nodes n elapsed
    = Ok (nodes, Z.of_nat (length found), elapsed).
Proof.
  intros Hn.
  eexists (filter (complete n) (placements_from (Z.to_nat n) n [])), _.
  split; [apply NoDup_filter, placements_from_NoDup|]. split.
  - intros q. rewrite list_elem_of_filter, placements_peaceful by assumption.
    unfold complete. split.
    + intros [Hlen [Hp _]]. split; assumption.
    + intros [Hp Hlen]. split; [exact Hlen|]. split; [exact Hp|lia].
  - apply backtracking_count_nodes_placements, Hn.
Qed.

Lemma solutions_is_number_of_full_placements_witness :
  exists (found : list (list Z)) (nodes : Z),
    NoDup found /\
    (forall q, q ∈ found <-> peaceful 4 q /\ len q = 4) /\
    backtracking_count_nodes 4 0
    = Ok (nodes, Z.of_nat (length found), 0%Q).
Proof. apply (solutions_is_number_of_full_placements 4 0). lia. Defined.

(** ** Bounds on the estimator *)

Lemma safe_column_fresh (n : Z) (board : list Z) (row c : Z) :
  row <= len board -> c ∈ safe_columns n board row ->
  0 <= c < n /\ c ∉ take (Z.to_nat row) board.
Proof.
  intros Hrow Hc. unfold safe_columns in Hc.
  apply list_elem_of_filter in Hc as [Hacc Hin].
  apply in_range in Hin. split; [exact Hin|].
  rewrite accepts_safe_at in Hacc by assumption.
  apply safe_at_no_conflict in Hacc.
  intros Htake. apply elem_of_take in Htake as (i & Hi & Hlt).
  destruct (Hacc (Z.of_nat i) c) as [Hne _]; [lia| |].
  - rewrite Nat2Z.id. exact Hi.
  - apply Hne. reflexivity.
Qed.

Lemma safe_columns_at_most (n : Z) (board : list Z) (row : Z) :
  0 <= n -> 0 <= row <= len board -> distinct_columns n board row ->
  len (safe_columns n board row) <= n - row.
Proof.
  intros Hn Hrow [Hnd Hcols].
  assert (Hsub : safe_columns n board row ++ take (Z.to_nat row) board
                 ⊆+ range n).
  { apply NoDup_submseteq.
    - apply NoDup_app. split; [|split].
      + apply NoDup_filter, NoDup_seqZ.
      + intros c Hc. apply (safe_column_fresh n board row c); [lia|exact Hc].
      + exact Hnd.
    - intros c Hc. apply elem_of_app in Hc as [Hc|Hc].
      + apply in_range. apply (safe_column_fresh n board row c); [lia|exact Hc].
      + apply in_range. rewrite Forall_forall in Hcols. apply Hcols, Hc. }
  apply submseteq_length in Hsub.
  rewrite length_app, length_take_le in Hsub by (unfold len in Hrow; lia).
  pose proof (len_range n) as Hr. unfold len in *. lia.
Qed.

(** X7: for [n >= 0], on a board whose first [row] rows hold queens on
    distinct columns of [0, n), [get_valid_positions] returns at most
    [n - row] columns. *)
Theorem get_valid_positions_at_most (board : list Z) (row n : Z) :
  0 <= n -> 0 <= row <= len board -> distinct_columns n board row ->
  exists valid,
    get_valid_positions board row n = Ok (valid, board) /\
    len valid <= n - row.
Proof.
  intros Hn Hrow Hdist. exists (safe_columns n board row).
  split; [apply get_valid_positions_value; lia|].
  apply safe_columns_at_most; assumption.
Qed.

Lemma get_valid_positions_at_most_witness :
  exists valid,
    get_valid_positions [1; 3; -1; -1] 2 4 = Ok (valid, [1; 3; -1; -1]) /\
    len valid <= 4 - 2.
Proof.
  apply (get_valid_positions_at_most [1; 3; -1; -1] 2 4).
  - lia.
  - vm_compute. split; discriminate.
  - split.
    + change (NoDup [1; 3]). apply NoDup_cons. split.
      * intros Hin. apply list_elem_of_singleton in Hin. discriminate.
      * apply NoDup_singleton.
    + change (Forall (fun c => 0 <= c < 4) [1; 3]).
      repeat constructor; lia.
Defined.

Lemma falling_sum_nonneg (d : nat) : 0 <= falling_sum d.
Proof. induction d as [|d IH]; simpl falling_sum; [lia|nia]. Qed.

Lemma distinct_columns_commit (n : Z) (board : list Z) (row c : Z) :
  0 <= row < len board -> distinct_columns n board row ->
  c ∈ safe_columns n board row ->
  distinct_columns n (<[Z.to_nat row := c]> board) (row + 1).
Proof.
  intros Hrow [Hnd Hcols] Hc.
  destruct (safe_column_fresh n board row c) as [Hin Hfresh]; [lia|exact Hc|].
  unfold distinct_columns.
  replace (Z.to_nat (row + 1)) with (S (Z.to_nat row)) by lia.
  rewrite (take_S_r _ _ c)
    by (apply list_lookup_insert_eq; unfold len in Hrow; lia).
  rewrite take_insert_ge by lia. split.
  - apply NoDup_app. split; [exact Hnd|]. split; [|apply NoDup_singleton].
    intros x Hx Hxc. apply list_elem_of_singleton in Hxc. subst x.
    contradiction.
  - apply Forall_app. split; [exact Hcols|]. constructor; [exact Hin|constructor].
Qed.

Lemma descent_upper (n : Z) (board : list Z) (row product acc v : Z) :
  descent n board row product acc v ->
  0 <= row -> len board = n -> 0 <= product ->
  distinct_columns n board row ->
  v <= acc + product * falling_sum (Z.to_nat (n - row)).
Proof.
  induction 1 as [board row product acc Hend
                 |board row product acc Hrow Hm
                 |board row product acc c v Hrow Hm Hc Hd IH];
    intros Hrow0 Hlen Hp Hdist.
  - pose proof (falling_sum_nonneg (Z.to_nat (n - row))). nia.
  - pose proof (falling_sum_nonneg (Z.to_nat (n - row))). nia.
  - pose proof (safe_columns_at_most n board row ltac:(lia) ltac:(lia) Hdist)
      as Hle.
    pose proof (len_nonneg (safe_columns n board row)) as Hm0.
    set (m := len (safe_columns n board row)) in *.
    assert (Hstep : v <= acc + product * m
                         + product * m
                           * falling_sum (Z.to_nat (n - (row + 1)))).
    { apply IH; [lia|rewrite len_insert; exact Hlen|nia|].
      apply distinct_columns_commit; [lia|exact Hdist|exact Hc]. }
    replace (Z.to_nat (n - row)) with (S (Z.to_nat (n - (row + 1)))) by lia.
    cbn [falling_sum].
    pose proof (falling_sum_nonneg (Z.to_nat (n - (row + 1)))) as Hf.
    replace (Z.of_nat (S (Z.to_nat (n - (row + 1))))) with (n - row) by lia.
    set (f := falling_sum (Z.to_nat (n - (row + 1)))) in *.
    assert (product * m * (1 + f) <= product * (n - row) * (1 + f)).
    { apply Z.mul_le_mono_nonneg_r; [lia|].
      apply Z.mul_le_mono_nonneg_l; lia. }
    lia.
Qed.

Lemma trial_value_upper (n v : Z) :
  0 <= n -> trial_value n v -> v <= 1 + falling_sum (Z.to_nat n).
Proof.
  intros Hn Hd. unfold trial_value in Hd.
  apply descent_upper in Hd.
  - rewrite Z.sub_0_r, Z.mul_1_l in Hd. exact Hd.
  - lia.
  - rewrite len_replicate_py. lia.
  - lia.
  - split; simpl; constructor.
Qed.


(** X8: for [n >= 0] each per-trial value is at most
    [1 + n + n (n-1) + ... + n!]: a row offers no column an earlier row
    has taken.  The loop over the trials (at least one) produces these
    values, and the call returns exactly them, unless one of its closing
    divisions raises [OverflowError]. *)
Theorem trial_values_at_most {G : Type} `{RandomSource G}
    (n num_trials : Z) (seed : option Z) (g : G) (elapsed : Q) :
  0 <= n -> 1 <= num_trials ->
  exists estimates g',
    trials_loop n (range num_trials) []
      (match seed with Some s => seed_rng s | None => g end)
    = Ok (estimates, g') /\
    len estimates = num_trials /\
    Forall (fun v => v <= 1 + falling_sum (Z.to_nat n)) estimates /\
    ((exists average avg_time,
        monte_carlo_estimate n num_trials seed g elapsed
        = Ok (average, estimates, avg_time)) \/
     monte_carlo_estimate n num_trials seed g elapsed = Raise OverflowError).
Proof.
  intros Hn Hk.
  destruct (monte_carlo_estimate_ends n num_trials seed g elapsed Hk)
    as (estimates & g' & Hloop & Hlen & Hall & Hrun).
  exists estimates, g'. split; [exact Hloop|]. split; [exact Hlen|].
  split; [|exact Hrun].
  eapply Forall_impl; [exact Hall|].
  intros v Hv. apply trial_value_upper; assumption.
Qed.

Lemma trial_values_at_most_witness :
  exists estimates g',
    trials_loop 4 (range 6) [] (seed_rng 42 : Z) = Ok (estimates, g') /\
    len estimates = 6 /\
    Forall (fun v => v <= 1 + falling_sum (Z.to_nat 4)) estimates /\
    ((exists average avg_time,
        monte_carlo_estimate 4 6 (Some 42) (0 : Z) 1
        = Ok (average, estimates, avg_time)) \/
     monte_carlo_estimate 4 6 (Some 42) (0 : Z) 1 = Raise OverflowError).
Proof. apply (trial_values_at_most 4 6 (Some 42) (0 : Z) 1); lia. Defined.



(** ** Printing a board *)

Lemma string_app_cons (a : Ascii.ascii) (s t : string) :
  String a s +:+ t = String a (s +:+ t).
Proof. reflexivity. Qed.

Lemma string_app_nil_r (s : string) : s +:+ "" = s.
Proof.
  induction s as [|a s IH]; [reflexivity|].
  rewrite string_app_cons, IH. reflexivity.
Qed.

Lemma string_app_assoc (s t u : string) : (s +:+ t) +:+ u = s +:+ t +:+ u.
Proof.
  induction s as [|a s IH]; [reflexivity|].
  rewrite !string_app_cons, IH. reflexivity.
Qed.

Lemma print_board_row_value (board : list Z) (row q : Z) :
  getitem board row = Ok q ->
  forall (cols : list Z) (line : string),
    print_board_row board row cols line = Ok (line +:+ cells q cols).
Proof.
  intros Hq. induction cols as [|col rest IH]; intros line; simpl.
  - rewrite string_app_nil_r. reflexivity.
  - rewrite Hq. cbn [bind]. rewrite IH, string_app_assoc. reflexivity.
Qed.

Lemma cells_app (q : Z) (xs ys : list Z) :
  cells q (xs ++ ys) = cells q xs +:+ cells q ys.
Proof.
  induction xs as [|x xs IH]; simpl; [reflexivity|].
  rewrite IH, string_app_assoc. reflexivity.
Qed.

Lemma cells_dots (q : Z) (k : nat) :
  forall m : Z,
    q < m \/ m + Z.of_nat k <= q -> cells q (seqZ m (Z.of_nat k)) = dots k.
Proof.
  induction k as [|k IH]; intros m Hq; [reflexivity|].
  rewrite seqZ_cons by lia.
  replace (Z.pred (Z.of_nat (S k))) with (Z.of_nat k) by lia.
  simpl. destruct (Z.eqb_spec q m); [lia|].
  rewrite IH by lia. reflexivity.
Qed.

Lemma cells_dots_Z (q m k : Z) :
  q < m \/ m + k <= q -> cells q (seqZ m k) = dots (Z.to_nat k).
Proof.
  intros Hq. destruct (Z.le_gt_cases k 0) as [Hk|Hk].
  - rewrite seqZ_nil by assumption.
    replace (Z.to_nat k) with O by lia. reflexivity.
  - pose proof (cells_dots q (Z.to_nat k) m) as Hd.
    rewrite Z2Nat.id in Hd by lia. apply Hd. lia.
Qed.

(** The cells the loop writes for a row add up to the row's picture. *)
Lemma cells_row_text (n q : Z) : cells q (range n) = row_text n q.
Proof.
  unfold row_text, range.
  destruct (Z.leb_spec 0 q) as [Hq0|Hq0];
    [destruct (Z.ltb_spec q n) as [Hqn|Hqn]|]; simpl.
  - replace n with (q + (n - q)) at 1 by lia.
    rewrite seqZ_app by lia. rewrite cells_app, Z.add_0_l.
    rewrite (seqZ_cons q) by lia. simpl. rewrite Z.eqb_refl.
    rewrite !cells_dots_Z by lia.
    replace (Z.pred (n - q)) with (n - 1 - q) by lia. reflexivity.
  - apply cells_dots_Z. lia.
  - apply cells_dots_Z. lia.
Qed.

Lemma print_board_rows_value (board : list Z) (n : Z) (rows : list Z) :
  Forall (fun r => 0 <= r < len board) rows ->
  forall out : list string,
    print_board_rows board n rows out
    = (out ++ ((fun r => row_text n (board !!! Z.to_nat r)) <$> rows), Ok tt).
Proof.
  induction 1 as [|r rows Hr _ IH]; intros out; simpl.
  - rewrite app_nil_r. reflexivity.
  - destruct (getitem_in_range board r Hr) as (q & Hq & Hget).
    rewrite (print_board_row_value board r q Hget), cells_row_text.
    rewrite IH, <- app_assoc. simpl.
    rewrite (list_lookup_total_correct _ _ _ Hq). reflexivity.
Qed.

Lemma print_board_rows_app (board : list Z) (n : Z) (xs ys : list Z) :
  forall out : list string,
    print_board_rows board n (xs ++ ys) out
    = match print_board_rows board n xs out with
      | (out', Ok _) => print_board_rows board n ys out'
      | other => other
      end.
Proof.
  induction xs as [|x xs IH]; intros out; simpl; [reflexivity|].
  destruct (print_board_row board x (range n) ""); [apply IH|reflexivity..].
Qed.

(** X10: for a board of at least [n] rows, [print_board] writes one line
    per row and an empty line after them and raises nothing.  The line of
    a row is [n] squares of two characters, with [Q] on the row's column
    when that is a column of the board and dots everywhere else; a row
    without a queen is all dots. *)
Theorem print_board_picture (board : list Z) (n : Z) :
  n <= len board ->
  print_board board n
  = (((fun r => row_text n (board !!! Z.to_nat r)) <$> range n) ++ [""],
     Ok tt).
Proof.
  intros Hn. unfold print_board.
  rewrite print_board_rows_value; [reflexivity|].
  apply Forall_forall. intros r Hr. apply in_range in Hr. lia.
Qed.

Lemma print_board_picture_witness :
  print_board [1; 3; -1; 7] 3
  = (((fun r => row_text 3 ([1; 3; -1; 7] !!! Z.to_nat r)) <$> range 3) ++ [""],
     Ok tt).
Proof.
  apply (print_board_picture [1; 3; -1; 7] 3). vm_compute. discriminate.
Defined.

(** X11: for a board of fewer than [n] rows, [print_board] writes the
    lines of the rows the board has and then raises [IndexError]; the
    closing empty line is not written. *)
Theorem print_board_short_board (board : list Z) (n : Z) :
  len board < n ->
  print_board board n
  = ((fun r => row_text n (board !!! Z.to_nat r)) <$> range (len board),
     Raise IndexError).
Proof.
  intros Hn. pose proof (len_nonneg board) as Hlen.
  unfold print_board.
  assert (Hsplit : range n
                   = range (len board)
                     ++ len board :: seqZ (Z.succ (len board))
                                          (Z.pred (n - len board))).
  { unfold range. replace n with (len board + (n - len board)) at 1 by lia.
    rewrite seqZ_app by lia. rewrite Z.add_0_l.
    rewrite (seqZ_cons (len board)) by lia. reflexivity. }
  rewrite Hsplit at 1. rewrite print_board_rows_app.
  rewrite print_board_rows_value
    by (apply Forall_forall; intros r Hr; apply in_range in Hr; lia).
  cbn [print_board_rows app].
  assert (Hrow : print_board_row board (len board) (range n) ""
                 = Raise IndexError).
  { unfold range. rewrite seqZ_cons by lia. cbn [print_board_row].
    rewrite getitem_nonneg by assumption.
    rewrite (proj2 (lookup_ge_None board (Z.to_nat (len board))));
      [reflexivity|unfold len; lia]. }
  rewrite Hrow. reflexivity.
Qed.

Lemma print_board_short_board_witness :
  print_board [1; 3] 4
  = ((fun r => row_text 4 ([1; 3] !!! Z.to_nat r)) <$> range (len [1; 3]),
     Raise IndexError).
Proof. apply (print_board_short_board [1; 3] 4). reflexivity. Defined.

(** ** The average *)

Lemma mean_between (lo hi s k : Z) :
  1 <= k -> lo * k <= s <= hi * k ->
  (inject_Z lo <= Qred (inject_Z s / inject_Z k) <= inject_Z hi)%Q.
Proof.
  intros Hk [Hlo Hhi]. rewrite Qred_correct.
  assert (Hpos : (0 < inject_Z k)%Q).
  { change 0%Q with (inject_Z 0). rewrite <- Zlt_Qlt. lia. }
  split.
  - apply Qle_shift_div_l; [exact Hpos|].
    rewrite <- inject_Z_mult, <- Zle_Qle. exact Hlo.
  - apply Qle_shift_div_r; [exact Hpos|].
    rewrite <- inject_Z_mult, <- Zle_Qle. exact Hhi.
Qed.

(** X12: for [n >= 1] and at least one trial, an average the estimator
    returns lies between [1 + n] and [1 + n + n (n-1) + ... + n!]; and the
    estimator does return one when the number of trials and that upper
    bound are within the range of a float. *)
Theorem average_within_bounds {G : Type} `{RandomSource G}
    (n num_trials : Z) (seed : option Z) (g : G) (elapsed : Q) :
  1 <= n -> 1 <= num_trials ->
  (num_trials < float_limit ->
   1 + falling_sum (Z.to_nat n) < float_limit ->
   exists average estimates avg_time,
     monte_carlo_estimate n num_trials seed g elapsed
     = Ok (average, estimates, avg_time)) /\
  (forall average estimates avg_time,
     monte_carlo_estimate n num_trials seed g elapsed
     = Ok (average, estimates, avg_time) ->
     (inject_Z (1 + n) <= average
      <= inject_Z (1 + falling_sum (Z.to_nat n)))%Q).
Proof.
  intros Hn Hk.
  destruct (monte_carlo_estimate_outcome n num_trials seed g elapsed Hk)
    as (estimates & g' & _ & Hlen & Hall & Hrun).
  assert (Hsum : (1 + n) * num_trials <= sum estimates
                 <= (1 + falling_sum (Z.to_nat n)) * num_trials).
  { rewrite <- Hlen. apply sum_between.
    eapply Forall_impl; [exact Hall|]. intros v Hv. split.
    - apply trial_value_lower; assumption.
    - apply trial_value_upper; [lia|assumption]. }
  rewrite Hrun. split.
  - intros Hsmall Hbound.
    destruct (Z.leb_spec float_limit num_trials); [lia|].
    destruct (Z.leb_spec (float_limit * num_trials) (sum estimates));
      [nia|].
    eexists _, _, _. reflexivity.
  - intros average ests avg_time Hok.
    destruct (float_limit <=? num_trials); [discriminate|].
    destruct (float_limit * num_trials <=? sum estimates); [discriminate|].
    injection Hok as <- _ _.
    apply mean_between; assumption.
Qed.

Lemma average_within_bounds_witness :
  (4 < float_limit ->
   1 + falling_sum (Z.to_nat 5) < float_limit ->
   exists average estimates avg_time,
     monte_carlo_estimate 5 4 (Some 7) (0 : Z) 1
     = Ok (average, estimates, avg_time)) /\
  (forall average estimates avg_time,
     monte_carlo_estimate 5 4 (Some 7) (0 : Z) 1
     = Ok (average, estimates, avg_time) ->
     (inject_Z (1 + 5) <= average
      <= inject_Z (1 + falling_sum (Z.to_nat 5)))%Q).
Proof. apply (average_within_bounds 5 4 (Some 7) (0 : Z) 1); lia. Defined.

(** ** The estimator, averaged over all draws *)

Lemma total_app {A : Type} (f : A -> Z) (l k : list A) :
  total f (l ++ k) = total f l + total f k.
Proof. induction l as [|x l IH]; simpl; [reflexivity|]. rewrite IH. lia. Qed.

Lemma total_ext {A : Type} (f g : A -> Z) (l : list A) :
  Forall (fun x => f x = g x) l -> total f l = total g l.
Proof.
  induction 1 as [|x l Hx _ IH]; simpl; [reflexivity|].
  rewrite Hx, IH. reflexivity.
Qed.

Lemma total_fmap {A B : Type} (f : B -> Z) (h : A -> B) (l : list A) :
  total f (h <$> l) = total (fun x => f (h x)) l.
Proof.
  induction l as [|x l IH]; [reflexivity|].
  rewrite fmap_cons. cbn [total]. rewrite IH. reflexivity.
Qed.

Lemma total_bind {A B : Type} (f : B -> Z) (h : A -> list B) (l : list A) :
  total f (l ≫= h) = total (fun x => total f (h x)) l.
Proof.
  induction l as [|x l IH]; [reflexivity|].
  rewrite bind_cons, total_app, IH. reflexivity.
Qed.

Lemma total_linear {A : Type} (a b : Z) (f : A -> Z) (l : list A) :
  total (fun x => a + b * f x) l = a * Z.of_nat (length l) + b * total f l.
Proof.
  induction l as [|x l IH]; [simpl; lia|].
  cbn [total length]. rewrite IH. lia.
Qed.

(** Reducing the numbers below a multiple of [m] modulo [m] hits every
    residue equally often. *)
Lemma total_mod (g : nat -> Z) (m q : nat) :
  (0 < m)%nat ->
  forall j : nat,
    total (fun x => g (x mod m)%nat) (seq (j * m) (q * m))
    = Z.of_nat q * total g (seq 0 m).
Proof.
  intros Hm. induction q as [|q IH]; intros j; [reflexivity|].
  replace (S q * m)%nat with (m + q * m)%nat by lia.
  rewrite seq_app, total_app.
  replace (j * m + m)%nat with (S j * m)%nat by lia.
  rewrite IH.
  assert (Hfirst : total (fun x => g (x mod m)%nat) (seq (j * m) m)
                   = total g (seq 0 m)).
  { replace (seq (j * m) m) with (Nat.add (j * m) <$> seq 0 m)
      by (rewrite fmap_add_seq; f_equal; lia).
    rewrite total_fmap. apply total_ext, Forall_forall.
    intros y Hy. apply elem_of_seq in Hy.
    rewrite Nat.add_comm, Nat.Div0.mod_add, Nat.mod_small by lia.
    reflexivity. }
  rewrite Hfirst. lia.
Qed.

(** Summing over the positions of a list is summing over its elements. *)
Lemma total_positions (f : Z -> Z) (valid : list Z) :
  total (fun y => f (valid !!! y)) (seq 0 (length valid)) = total f valid.
Proof.
  induction valid as [|c valid IH]; [reflexivity|].
  cbn [length seq total]. rewrite <- fmap_S_seq, total_fmap.
  change (total (fun y => f (valid !!! y)) (seq 0 (length valid)))
    with (total (fun y => f ((c :: valid) !!! S y)) (seq 0 (length valid)))
    in IH.
  rewrite IH. reflexivity.
Qed.

Lemma length_bind_if {B : Type} (b : Z -> bool) (X : Z -> list B)
    (l : list Z) :
  Z.of_nat (length (l ≫= (fun c => if b c then X c else [])))
  = total (fun c => Z.of_nat (length (X c))) (filter (fun c => b c = true) l).
Proof.
  induction l as [|c l IH]; [reflexivity|].
  rewrite bind_cons, length_app, Nat2Z.inj_add, IH, filter_cons.
  destruct (b c) eqn:Hb.
  - rewrite decide_True by reflexivity. reflexivity.
  - rewrite decide_False by discriminate. reflexivity.
Qed.

Lemma safe_columns_board_with (n : Z) (p : list Z) :
  len p <= n ->
  safe_columns n (board_with n p) (len p)
  = filter (fun c => safe_at p (len p) c = true) (range n).
Proof.
  intros Hp. unfold safe_columns. apply list_filter_iff. intros c.
  rewrite accepts_safe_at by (rewrite len_board_with; lia).
  unfold board_with. rewrite safe_at_app by lia. reflexivity.
Qed.

(** The placements below [p] are [p] and those below each of its safe
    continuations. *)
Lemma placements_from_count (d : nat) (n : Z) (p : list Z) :
  len p <= n ->
  Z.of_nat (length (placements_from (S d) n p))
  = 1 + total (fun c => Z.of_nat (length (placements_from d n (p ++ [c]))))
          (safe_columns n (board_with n p) (len p)).
Proof.
  intros Hp. cbn [placements_from length].
  rewrite Nat2Z.inj_succ, length_bind_if, safe_columns_board_with
    by assumption.
  lia.
Qed.

Lemma length_scripts (L k : nat) :
  Z.of_nat (length (scripts L k)) = Z.of_nat L ^ Z.of_nat k.
Proof.
  induction k as [|k IH]; [reflexivity|].
  cbn [scripts].
  assert (Hall : forall l : list nat,
            Z.of_nat (length (l ≫= (fun x => cons x <$> scripts L k)))
            = Z.of_nat (length l) * Z.of_nat L ^ Z.of_nat k).
  { induction l as [|x l IHl]; [reflexivity|].
    rewrite bind_cons, length_app, length_fmap, Nat2Z.inj_add, IHl, IH.
    cbn [length]. lia. }
  rewrite Hall, length_seq, Nat2Z.inj_succ, Z.pow_succ_r by lia.
  reflexivity.
Qed.

(** One row of a trial that replays a script: the next number of the
    script, reduced below the number of safe columns, picks the column. *)
Lemma trial_rows_scripted (n row : Z) (rest : list Z) (board : list Z)
    (acc prod : Z) (x : nat) (s : list nat) :
  0 <= row < len board ->
  trial_rows n (row :: rest) board acc prod (x :: s)
  = let valid := safe_columns n board row in
    if len valid =? 0 then Ok (acc, x :: s)
    else trial_rows n rest
           (<[Z.to_nat row := valid !!! (x mod length valid)%nat]> board)
           (acc + prod * len valid) (prod * len valid) s.
Proof.
  intros Hrow. cbn [trial_rows].
  rewrite get_valid_positions_value by lia. cbn [bind]. cbv zeta.
  destruct (Z.eqb_spec (len (safe_columns n board row)) 0) as [_|Hm];
    [reflexivity|].
  generalize dependent (safe_columns n board row). intros valid Hm.
  destruct valid as [|c0 valid0] eqn:Hvalid; [contradiction Hm; reflexivity|].
  rewrite <- Hvalid in *. unfold choice. rewrite Hvalid at 1.
  cbn [randbelow scripted scripted_below].
  assert (Hlt : (x mod length valid < length valid)%nat).
  { apply Nat.mod_upper_bound. rewrite Hvalid. simpl. lia. }
  destruct (lookup_lt_is_Some_2 valid _ Hlt) as [c Hc].
  rewrite Hc. cbn [bind].
  rewrite (list_lookup_total_correct _ _ _ Hc).
  rewrite setitem_in_range by lia. reflexivity.
Qed.

Lemma total_const {A : Type} (c : Z) (l : list A) :
  total (fun _ => c) l = c * Z.of_nat (length l).
Proof. induction l as [|x l IH]; [simpl; lia|]. cbn [total length]. lia. Qed.

Lemma insert_board_with (n : Z) (p : list Z) (c : Z) :
  len p < n ->
  <[Z.to_nat (len p) := c]> (board_with n p) = board_with n (p ++ [c]).
Proof.
  intros Hp. rewrite board_with_open, board_with_snoc by assumption.
  unfold len. rewrite Nat2Z.id, insert_at_end. reflexivity.
Qed.

(** Summed over all scripts of draws below [L], a number every possible
    count of safe columns divides, the values of the row loop started on
    the placement [p] add up to as many times the accumulator plus the
    running product for each placement below [p]. *)
Lemma trial_rows_total (L : nat) (n : Z) :
  (forall m : nat, (1 <= m)%nat -> Z.of_nat m <= n -> Nat.divide m L) ->
  forall (d : nat) (p : list Z) (acc prod : Z),
    len p + Z.of_nat d = n ->
    total (fun s => estimate_of
                      (trial_rows n (seqZ (len p) (Z.of_nat d))
                         (board_with n p) acc prod s))
          (scripts L d)
    = Z.of_nat L ^ Z.of_nat d
      * (acc + prod * (Z.of_nat (length (placements_from d n p)) - 1)).
Proof.
  intros Hdiv. induction d as [|d IH]; intros p acc prod Hn.
  - change (Z.of_nat 0) with 0. rewrite seqZ_nil by lia.
    cbn [scripts total trial_rows estimate_of placements_from length].
    rewrite Z.pow_0_r. lia.
  - pose proof (len_nonneg p) as Hp0.
    rewrite seqZ_cons by lia.
    replace (Z.pred (Z.of_nat (S d))) with (Z.of_nat d) by lia.
    cbn [scripts]. rewrite total_bind.
    rewrite placements_from_count by lia.
    set (valid := safe_columns n (board_with n p) (len p)).
    set (m := len valid).
    set (Lz := Z.of_nat L ^ Z.of_nat d).
    set (T := fun c => Z.of_nat (length (placements_from d n (p ++ [c])))).
    assert (Hx : forall x : nat,
      total (fun s => estimate_of
                        (trial_rows n
                           (len p :: seqZ (Z.succ (len p)) (Z.of_nat d))
                           (board_with n p) acc prod s))
            (cons x <$> scripts L d)
      = if m =? 0 then acc * Lz
        else Lz * (acc + prod * m
                         * T (valid !!! (x mod length valid)%nat))).
    { intros x. rewrite total_fmap.
      erewrite total_ext;
        [|apply Forall_forall; intros s _;
          rewrite trial_rows_scripted by (rewrite len_board_with; lia);
          reflexivity].
      cbv zeta. fold valid. fold m.
      destruct (Z.eqb_spec m 0) as [_|Hm].
      - cbn [estimate_of]. rewrite total_const, length_scripts. reflexivity.
      - rewrite insert_board_with by lia.
        replace (Z.succ (len p))
          with (len (p ++ [valid !!! (x mod length valid)%nat]))
          by (rewrite len_app; unfold len; simpl; lia).
        rewrite IH by (rewrite len_app; unfold len in *; simpl; lia).
        fold Lz. unfold T. ring. }
    erewrite total_ext; [|apply Forall_forall; intros x _; apply Hx].
    assert (Hlen : Z.of_nat (length (scripts L (S d)))
                   = Z.of_nat L * Lz) by
      (unfold Lz; rewrite length_scripts, Nat2Z.inj_succ, Z.pow_succ_r by lia;
       reflexivity).
    rewrite Nat2Z.inj_succ, Z.pow_succ_r by lia. fold Lz.
    destruct (Z.eqb_spec m 0) as [Hm|Hm].
    + rewrite total_const, length_seq.
      assert (Hnil : valid = []).
      { unfold m, len in Hm. destruct valid; [reflexivity|simpl in Hm; lia]. }
      rewrite Hnil. cbn [total]. ring.
    + assert (Hk : (1 <= length valid)%nat) by (unfold m, len in Hm; lia).
      assert (Hkn : Z.of_nat (length valid) <= n).
      { unfold valid, safe_columns.
        pose proof (length_filter (fun c => accepts n (board_with n p) (len p) c = true)
                      (range n)) as Hf.
        pose proof (len_range n) as Hr. unfold len in Hr. lia. }
      destruct (Hdiv (length valid) Hk Hkn) as [q Hq].
      replace (seq 0 L) with (seq (0 * length valid) (q * length valid))
        by (f_equal; lia).
      etransitivity;
        [apply (total_mod (fun y => Lz * (acc + prod * m * T (valid !!! y)))
                  (length valid) q Hk 0)|].
      rewrite (total_positions (fun c => Lz * (acc + prod * m * T c)) valid).
      erewrite total_ext;
        [|apply Forall_forall; intros c _;
          instantiate (1 := fun c => Lz * acc + Lz * prod * m * T c);
          cbv beta; ring].
      rewrite (total_linear (Lz * acc) (Lz * prod * m) T valid).
      fold (len valid). fold m.
      replace (Z.of_nat L) with (Z.of_nat q * m)
        by (unfold m, len; lia).
      ring.
Qed.

Example trial_total_three_queens :
  total (fun s => estimate_of (trial 3 s)) (scripts 6 3) = 216 * 6.
Proof. vm_compute. reflexivity. Qed.

(** X13: the estimator is unbiased.  Take for [L] a common multiple of
    1, ..., n, so that a number drawn below [L] and reduced below the
    number of safe columns makes every safe column equally likely.  Then
    the values of the trials that replay the scripts of [n] draws below
    [L], summed over all these scripts, are the number of scripts times
    the node count of the exact counter: their mean is that node count.
    Every one of these trials returns a value. *)
Theorem trial_mean_is_node_count (L : nat) (n : Z) (elapsed : Q) :
  0 <= n ->
  (forall m : nat, (1 <= m)%nat -> Z.of_nat m <= n -> Nat.divide m L) ->
  exists nodes sols,
    backtracking_count_nodes n elapsed = Ok (nodes, sols, elapsed) /\
    (forall s : list nat, exists v s', trial n s = Ok (v, s')) /\
    total (fun s => estimate_of (trial n s)) (scripts L (Z.to_nat n))
    = Z.of_nat (length (scripts L (Z.to_nat n))) * nodes.
Proof.
  intros Hn Hdiv.
  eexists _, _. split; [apply backtracking_count_nodes_placements, Hn|].
  split.
  { intros s. destruct (trial_sound n s) as (v & s' & Hrun & _).
    exists v, s'. exact Hrun. }
  pose proof (trial_rows_total L n Hdiv (Z.to_nat n) [] 1 1) as Hsum.
  change (len []) with 0 in Hsum. rewrite Z2Nat.id in Hsum by assumption.
  unfold trial, range.
  replace (replicate_py (-1) n) with (board_with n [])
    by (unfold board_with, len; simpl; rewrite Z.sub_0_r; reflexivity).
  rewrite Hsum by lia. rewrite length_scripts, Z2Nat.id by assumption. ring.
Qed.

Lemma trial_mean_is_node_count_witness :
  exists nodes sols,
    backtracking_count_nodes 3 0 = Ok (nodes, sols, 0%Q) /\
    (forall s : list nat, exists v s', trial 3 s = Ok (v, s')) /\
    total (fun s => estimate_of (trial 3 s)) (scripts 6 (Z.to_nat 3))
    = Z.of_nat (length (scripts 6 (Z.to_nat 3))) * nodes.
Proof.
  apply (trial_mean_is_node_count 6 3 0); [lia|].
  intros m Hm1 Hm3.
  assert (Hm : m = 1%nat \/ m = 2%nat \/ m = 3%nat) by lia.
  destruct Hm as [-> | [-> | ->]];
    [exists 6%nat | exists 3%nat | exists 2%nat]; reflexivity.
Defined.
